(** * Tic-tac-toe: Board, minimax AI and Game session of [src/main.cpp]

    A shallow embedding of the three game-logic classes of the program
    ([Board], [AI], [Game]) together with the methods of the GUI that
    drive them ([GUI::handleEvents], [GUI::handleBottomClick],
    [GUI::toggleMode], [GUI::update]).  Member functions become
    computations in a small state-and-fault monad over the object they
    mutate; C++ undefined behaviour (indexing [std::array] out of bounds,
    signed [int] overflow) is an explicit fault, and the recursion of
    [AI::minimax] is bounded by a fuel argument which is shown to be
    always sufficient on a nine-cell board. *)

From Stdlib Require Import ZArith Lia Bool List.
From stdpp Require Import base tactics option list.
Import ListNotations.
Local Open Scope Z_scope.

(** ** Faults and the state monad *)

Inductive Fault : Type :=
  | OutOfBounds      (* operator[] of std::array outside its extent *)
  | SignedOverflow   (* int arithmetic leaving [INT_MIN, INT_MAX] *)
  | FuelExhausted.   (* recursion bound of the model reached *)

Inductive Res (A : Type) : Type :=
  | Ok (a : A)
  | Bad (f : Fault).
Arguments Ok {A} a.
Arguments Bad {A} f.

(** A member function of an object of type [S] returning an [A]. *)
Definition M (S A : Type) : Type := S -> Res (A * S).

Definition ret {S A} (a : A) : M S A := fun s => Ok (a, s).

Definition bind {S A B} (m : M S A) (k : A -> M S B) : M S B :=
  fun s => match m s with
           | Ok (a, s') => k a s'
           | Bad f => Bad f
           end.

Definition fault {S A} (f : Fault) : M S A := fun _ => Bad f.
Definition get {S} : M S S := fun s => Ok (s, s).
Definition put {S} (s : S) : M S unit := fun _ => Ok (tt, s).

Notation "'do' x <- m ; k" := (bind m (fun x => k))
  (at level 10, x name, m at level 100, k at level 200).
Notation "'do_' m ; k" := (bind m (fun _ => k))
  (at level 10, m at level 100, k at level 200).

(** [for (auto m : l) acc = body(acc, m);] *)
Fixpoint for_each {S A B} (body : B -> A -> M S B) (acc : B) (l : list A)
  : M S B :=
  match l with
  | [] => ret acc
  | x :: l' => do acc' <- body acc x; for_each body acc' l'
  end.

(** [for (auto x : l) if (auto v = f(x)) return v;] : the first hit, if any. *)
Fixpoint first_hit {S A B} (f : A -> M S (option B)) (l : list A)
  : M S (option B) :=
  match l with
  | [] => ret None
  | x :: l' => do v <- f x;
               match v with
               | Some b => ret (Some b)
               | None => first_hit f l'
               end
  end.

(** ** The C++ [int] *)

Definition INT_MIN : Z := - 2 ^ 31.
Definition INT_MAX : Z := 2 ^ 31 - 1.

Definition in_int (z : Z) : bool := (INT_MIN <=? z) && (z <=? INT_MAX).

(** The value of an [int] expression: defined only inside the range. *)
Definition int {S} (z : Z) : M S Z :=
  if in_int z then ret z else fault SignedOverflow.

(** ** Cells *)

Inductive Cell : Type := Empty | X | O.

#[global] Instance Cell_eq_dec : EqDecision Cell.
Proof. solve_decision. Defined.

Definition Cell_eqb (a b : Cell) : bool := bool_decide (a = b).

(** ** class Board *)

Module Board.

Definition SIZE : Z := 3.

(** [std::array<Cell, SIZE*SIZE> cells] *)
Abbreviation t := (list Cell).

(** A board object: the array has exactly [SIZE*SIZE] slots. *)
Definition wf (cells : t) : Prop := length cells = 9%nat.

(** [Board() { cells.fill(Cell::Empty); }] *)
Definition init : t := replicate (Z.to_nat (SIZE * SIZE)) Empty.

(** [cells[idx]] as an rvalue. *)
Definition at_ (idx : Z) : M t Cell := fun cells =>
  if idx <? 0 then Bad OutOfBounds
  else match cells !! Z.to_nat idx with
       | Some v => Ok (v, cells)
       | None => Bad OutOfBounds
       end.

(** [cells[idx] = v] *)
Definition store (idx : Z) (v : Cell) : M t unit := fun cells =>
  if idx <? 0 then Bad OutOfBounds
  else match cells !! Z.to_nat idx with
       | Some _ => Ok (tt, <[Z.to_nat idx := v]> cells)
       | None => Bad OutOfBounds
       end.

(** [r * SIZE + c] *)
Definition index (r c : Z) : M t Z :=
  do a <- int (r * SIZE); int (a + c).

Definition makeMove (r c : Z) (player : Cell) : M t bool :=
  do idx <- index r c;
  do v <- at_ idx;
  if Cell_eqb v Empty then
    do_ store idx player;
    ret true
  else ret false.

Definition undoMove (r c : Z) : M t unit :=
  do idx <- index r c;
  store idx Empty.

Definition availableMoves : M t (list (Z * Z)) :=
  for_each (fun moves r =>
    for_each (fun moves c =>
      do idx <- index r c;
      do v <- at_ idx;
      if Cell_eqb v Empty then ret (moves ++ [(r, c)]) else ret moves)
      moves (seqZ 0 SIZE))
    [] (seqZ 0 SIZE).

Definition isFull : M t bool := fun cells =>
  Ok (forallb (fun v => negb (Cell_eqb v Empty)) cells, cells).

(** [cells[i] != Empty && cells[i] == cells[j] && cells[i] == cells[k]],
    yielding [cells[i]] when it holds. *)
Definition line (i j k : Z) : M t (option Cell) :=
  do a <- at_ i;
  if Cell_eqb a Empty then ret None else
  do a1 <- at_ i; do b <- at_ j;
  if negb (Cell_eqb a1 b) then ret None else
  do a2 <- at_ i; do c <- at_ k;
  if negb (Cell_eqb a2 c) then ret None else
  do w <- at_ i; ret (Some w).

Definition checkWinner : M t (option Cell) :=
  (* rows *)
  do w <- first_hit (fun r =>
            do i <- int (r * SIZE);
            do j <- int (r * SIZE + 1);
            do k <- int (r * SIZE + 2);
            line i j k) (seqZ 0 SIZE);
  match w with Some p => ret (Some p) | None =>
  (* cols *)
  do w <- first_hit (fun c =>
            do j <- int (SIZE + c);
            do k <- int (2 * SIZE + c);
            line c j k) (seqZ 0 SIZE);
  match w with Some p => ret (Some p) | None =>
  (* diagonals *)
  do w <- line 0 4 8;
  match w with Some p => ret (Some p) | None =>
  do w <- line 2 4 6;
  match w with Some p => ret (Some p) | None =>
  ret None
  end end end end.

(** [Cell get(int r, int c) const] *)
Definition get (r c : Z) : M t Cell :=
  do idx <- index r c; at_ idx.

(** [void reset() { cells.fill(Cell::Empty); }] *)
Definition reset : M t unit := fun cells =>
  Ok (tt, replicate (length cells) Empty).

End Board.

(** ** class AI *)

Module AI.

(** [Cell ai, human;] *)
Record t : Type := Make { ai : Cell; human : Cell }.

(** Every ply fills one of the [SIZE*SIZE] cells, so the recursion of
    [minimax] is never deeper than that; one more unit of fuel pays for
    the call on the final position. *)
Definition FUEL : nat := S (Z.to_nat (Board.SIZE * Board.SIZE)).

Section Methods.

Variable self : t.

Definition scoreForWinner (winner : Cell) : Z :=
  if Cell_eqb winner (ai self) then 10
  else if Cell_eqb winner (human self) then -10
  else 0.

Fixpoint minimax (fuel : nat) (depth : Z) (isMaximizing : bool)
  : M Board.t Z :=
  match fuel with
  | 0%nat => fault FuelExhausted
  | S fuel' =>
    do winner <- Board.checkWinner;
    match winner with
    | Some w => ret (scoreForWinner w)
    | None =>
      do full <- Board.isFull;
      if full then ret 0
      else if isMaximizing then
        do moves <- Board.availableMoves;
        for_each (fun best m =>
            do_ Board.makeMove (fst m) (snd m) (ai self);
            do d <- int (depth + 1);
            do s <- minimax fuel' d false;
            let best' := Z.max best s in
            do_ Board.undoMove (fst m) (snd m);
            ret best')
          INT_MIN moves
      else
        do moves <- Board.availableMoves;
        for_each (fun best m =>
            do_ Board.makeMove (fst m) (snd m) (human self);
            do d <- int (depth + 1);
            do s <- minimax fuel' d true;
            let best' := Z.min best s in
            do_ Board.undoMove (fst m) (snd m);
            ret best')
          INT_MAX moves
    end
  end.

(** The body runs on the by-value parameter [board]; the state of this
    computation is that private copy. *)
Definition findBestMove : M Board.t (Z * Z) :=
  do moves <- Board.availableMoves;
  do best <- for_each (fun best m =>
      do_ Board.makeMove (fst m) (snd m) (ai self);
      do score <- minimax FUEL 0 false;
      do_ Board.undoMove (fst m) (snd m);
      if score >? fst best then ret (score, m) else ret best)
    (INT_MIN, (-1, -1)) moves;
  ret (snd best).

End Methods.

End AI.

(** Passing an object by value: the callee works on a copy, the caller
    keeps only the returned value. *)
Definition by_value {S A} (m : M S A) (arg : S) : Res A :=
  match m arg with
  | Ok (a, _) => Ok a
  | Bad f => Bad f
  end.

Definition lift {S A} (r : Res A) : M S A :=
  fun s => match r with Ok a => Ok (a, s) | Bad f => Bad f end.

(** ** class Game *)

Module Game.

Inductive Mode : Type := HumanVsHuman | HumanVsAI.

Record t : Type := Make {
  board : Board.t;
  current : Cell;
  mode : Mode;
  ai : AI.t;
  over : bool;
  winnerOpt : option Cell;
  scoreX : Z;
  scoreO : Z
}.

Definition set_board (b : Board.t) (g : t) : t :=
  Make b (current g) (mode g) (ai g) (over g) (winnerOpt g)
       (scoreX g) (scoreO g).
Definition set_current (p : Cell) (g : t) : t :=
  Make (board g) p (mode g) (ai g) (over g) (winnerOpt g)
       (scoreX g) (scoreO g).
Definition set_mode (m : Mode) (g : t) : t :=
  Make (board g) (current g) m (ai g) (over g) (winnerOpt g)
       (scoreX g) (scoreO g).
Definition set_over (o : bool) (g : t) : t :=
  Make (board g) (current g) (mode g) (ai g) o (winnerOpt g)
       (scoreX g) (scoreO g).
Definition set_winnerOpt (w : option Cell) (g : t) : t :=
  Make (board g) (current g) (mode g) (ai g) (over g) w
       (scoreX g) (scoreO g).
Definition set_scoreX (n : Z) (g : t) : t :=
  Make (board g) (current g) (mode g) (ai g) (over g) (winnerOpt g)
       n (scoreO g).
Definition set_scoreO (n : Z) (g : t) : t :=
  Make (board g) (current g) (mode g) (ai g) (over g) (winnerOpt g)
       (scoreX g) n.

(** A method of the member [board] called from a method of the game. *)
Definition on_board {A} (m : M Board.t A) : M t A := fun g =>
  match m (board g) with
  | Ok (a, b') => Ok (a, set_board b' g)
  | Bad f => Bad f
  end.

Definition modify (f : t -> t) : M t unit := fun g => Ok (tt, f g).

(** [Game(): board(), current(Cell::X), mode(Mode::HumanVsAI),
    ai(Cell::O, Cell::X), scoreX(0), scoreO(0) {}], with the default
    member initialisers [over = false] and an empty [winnerOpt]. *)
Definition init : t :=
  Make Board.init X HumanVsAI (AI.Make O X) false None 0 0.

Definition restart : M t unit :=
  do_ on_board Board.reset;
  do_ modify (set_current X);
  do_ modify (set_over false);
  modify (set_winnerOpt None).

Definition switchTurn : M t unit :=
  do g <- get;
  modify (set_current (if Cell_eqb (current g) X then O else X)).

Definition checkGameState : M t unit :=
  do w <- on_board Board.checkWinner;
  match w with
  | Some p =>
    do_ modify (set_over true);
    do_ modify (set_winnerOpt w);
    if Cell_eqb p X then
      do g <- get; do n <- int (scoreX g + 1); modify (set_scoreX n)
    else
      do g <- get; do n <- int (scoreO g + 1); modify (set_scoreO n)
  | None =>
    do full <- on_board Board.isFull;
    if full then
      do_ modify (set_over true);
      modify (set_winnerOpt None)
    else ret tt
  end.

Definition playMove (r c : Z) : M t bool :=
  do g <- get;
  if over g then ret false else
  do v <- on_board (Board.get r c);
  if negb (Cell_eqb v Empty) then ret false else
  do g <- get;
  do_ on_board (Board.makeMove r c (current g));
  do_ checkGameState;
  do g <- get;
  do_ (if negb (over g) then switchTurn else ret tt);
  ret true.

Definition aiMove : M t unit :=
  do g <- get;
  if over g then ret tt else
  do m <- lift (by_value (AI.findBestMove (ai g)) (board g));
  let r := fst m in
  let c := snd m in
  if r >=? 0 then
    do_ on_board (Board.makeMove r c O);
    do_ checkGameState;
    do g <- get;
    if negb (over g) then switchTurn else ret tt
  else ret tt.

Definition setMode (m : Mode) : M t unit := modify (set_mode m).
Definition getMode : M t Mode := do g <- get; ret (mode g).
Definition currentPlayer : M t Cell := do g <- get; ret (current g).
Definition isOver : M t bool := do g <- get; ret (over g).

End Game.

(** ** class GUI: event handling *)

Module GUI.

(** [void toggleMode()], acting on the referenced [game]. *)
Definition toggleMode : M Game.t unit :=
  do m <- Game.getMode;
  do_ (match m with
       | Game.HumanVsHuman => Game.setMode Game.HumanVsAI
       | Game.HumanVsAI => Game.setMode Game.HumanVsHuman
       end);
  Game.restart.

(** [cellSize = 600 / Board::SIZE], set by the constructor. *)
Definition cellSize : Z := 600 ÷ Board.SIZE.

(** [void handleBottomClick(int mx, int my)]: the Restart and Toggle Mode
    buttons. *)
Definition handleBottomClick (mx my : Z) : M Game.t unit :=
  do_ (if (mx >=? 50) && (mx <=? 250) && (my >=? 610) && (my <=? 660)
       then Game.restart else ret tt);
  if (mx >=? 350) && (mx <=? 550) && (my >=? 610) && (my <=? 660)
  then toggleMode else ret tt.

(** The events [handleEvents] reacts to, with the fields it reads. *)
Inductive Button : Type := MouseLeft | MouseOther.
Inductive KeyCode : Type := KeyR | KeyM | KeyOther.
Inductive Event : Type :=
  | Closed
  | MouseButtonPressed (button : Button) (x y : Z)
  | KeyPressed (code : KeyCode)
  | OtherEvent.

(** The body of the loop of [handleEvents] for one polled event, as it acts
    on the referenced [game] ([window.close()] does not touch the game). *)
Definition handleEvent (event : Event) : M Game.t unit :=
  match event with
  | Closed => ret tt
  | MouseButtonPressed MouseLeft mx my =>
    if my <=? 600 then
      let r := my ÷ cellSize in
      let c := mx ÷ cellSize in
      do m <- Game.getMode;
      match m with
      | Game.HumanVsHuman => do_ Game.playMove r c; ret tt
      | Game.HumanVsAI =>
        do p <- Game.currentPlayer;
        if Cell_eqb p X then
          do ok <- Game.playMove r c;
          if ok then
            (* AI turn *)
            do o <- Game.isOver;
            if negb o then Game.aiMove else ret tt
          else ret tt
        else ret tt
      end
    else
      (* bottom area for buttons *)
      handleBottomClick mx my
  | MouseButtonPressed MouseOther _ _ => ret tt
  | KeyPressed KeyR => Game.restart
  | KeyPressed KeyM => toggleMode
  | KeyPressed KeyOther => ret tt
  | OtherEvent => ret tt
  end.

(** [while (window.pollEvent(event)) ...] over the events of the queue. *)
Definition handleEvents (events : list Event) : M Game.t unit :=
  for_each (fun _ event => handleEvent event) tt events.

(** The state [update] works on: the referenced [game] and its
    function-local static [started]. *)
Definition on_game {A} (m : M Game.t A) : M (Game.t * bool) A := fun s =>
  match m (fst s) with
  | Ok (a, g') => Ok (a, (g', snd s))
  | Bad f => Bad f
  end.

Definition set_started (b : bool) : M (Game.t * bool) unit :=
  fun s => Ok (tt, (fst s, b)).

(** [void update()].  The reading of the static clock,
    [cooldown.getElapsedTime().asMilliseconds()], is an input. *)
Definition update (elapsed : Z) : M (Game.t * bool) unit :=
  do m <- on_game Game.getMode;
  do o <- on_game Game.isOver;
  do p <- on_game Game.currentPlayer;
  if match m with Game.HumanVsAI => true | Game.HumanVsHuman => false end
     && negb o && Cell_eqb p O
  then
    do s <- get;
    do_ (if negb (snd s) then set_started true else ret tt);
    if elapsed >? 300 then
      do_ on_game Game.aiMove;
      set_started false
    else ret tt
  else ret tt.

End GUI.

(** * Vocabulary of the properties

    Pure descriptions of what the methods compute, against which the
    embedded code is verified below. *)

Module BoardSpec.
Import Board.

(** Position of cell (r, c) in the array, for arguments that address it. *)
Definition slot (r c : Z) : nat := Z.to_nat (r * SIZE + c).

(** The indices for which [r * SIZE + c] is computed without overflow and
    lands inside the array. *)
Definition addressable (r c : Z) : Prop :=
  INT_MIN <= r * SIZE <= INT_MAX /\ 0 <= r * SIZE + c < SIZE * SIZE.

(** The indices the specification calls in range. *)
Definition in_range (r c : Z) : Prop := 0 <= r < SIZE /\ 0 <= c < SIZE.

(** The eight lines, each as the three array positions it covers, in the
    order [checkWinner] scans them. *)
Definition rows : list (nat * nat * nat) :=
  [(0, 1, 2); (3, 4, 5); (6, 7, 8)]%nat.
Definition cols : list (nat * nat * nat) :=
  [(0, 3, 6); (1, 4, 7); (2, 5, 8)]%nat.
Definition diagonals : list (nat * nat * nat) :=
  [(0, 4, 8); (2, 4, 6)]%nat.
Definition lines : list (nat * nat * nat) := rows ++ cols ++ diagonals.

(** Line [l] is complete for player [p]: its three cells hold [p]'s mark. *)
Definition complete (cells : t) (l : nat * nat * nat) (p : Cell) : Prop :=
  p <> Empty /\
  cells !! fst (fst l) = Some p /\
  cells !! snd (fst l) = Some p /\
  cells !! snd l = Some p.

(** The occupant of a line, when it is complete. *)
Definition occupant (cells : t) (l : nat * nat * nat) : option Cell :=
  match cells !! fst (fst l), cells !! snd (fst l), cells !! snd l with
  | Some a, Some b, Some c =>
      if Cell_eqb a Empty then None
      else if Cell_eqb a b && Cell_eqb a c then Some a else None
  | _, _, _ => None
  end.

(** The occupant of the first complete line of a list of lines. *)
Fixpoint first_complete (cells : t) (ls : list (nat * nat * nat))
  : option Cell :=
  match ls with
  | [] => None
  | l :: ls' =>
      match occupant cells l with
      | Some p => Some p
      | None => first_complete cells ls'
      end
  end.

(** What the specification asks of [checkWinner]. *)
Definition winner (cells : t) : option Cell := first_complete cells lines.

(** The cells of row [r], left to right. *)
Definition row_coords (r : Z) : list (Z * Z) := map (pair r) (seqZ 0 SIZE).

(** All cells in row-major order. *)
Definition coords : list (Z * Z) := flat_map row_coords (seqZ 0 SIZE).

(** Cell [m] exists and is Empty. *)
Definition is_empty_at (cells : t) (m : Z * Z) : bool :=
  match cells !! slot (fst m) (snd m) with
  | Some v => Cell_eqb v Empty
  | None => false
  end.

(** The Empty cells in row-major order. *)
Definition empties (cells : t) : list (Z * Z) :=
  List.filter (is_empty_at cells) coords.

(** No cell is Empty. *)
Definition full (cells : t) : bool :=
  forallb (fun v => negb (Cell_eqb v Empty)) cells.

(** Number of Empty cells of the array. *)
Definition count_empty (cells : t) : nat :=
  length (List.filter (fun v => Cell_eqb v Empty) cells).

End BoardSpec.

Module AISpec.
Import Board BoardSpec.

(** The board with player [p]'s mark put on cell [m]. *)
Definition place (cells : t) (m : Z * Z) (p : Cell) : t :=
  <[slot (fst m) (snd m) := p]> cells.

(** [z] is the largest (smallest) element of a list of scores. *)
Definition maximum_of (z : Z) (l : list Z) : Prop :=
  In z l /\ forall x, In x l -> x <= z.
Definition minimum_of (z : Z) (l : list Z) : Prop :=
  In z l /\ forall x, In x l -> z <= x.

(** The minimax value of a position, by plain recursion on the game tree. *)
Fixpoint value (self : AI.t) (n : nat) (cells : t) (isMaximizing : bool) : Z :=
  match n with
  | 0%nat => 0
  | S n' =>
    match winner cells with
    | Some w => AI.scoreForWinner self w
    | None =>
      if full cells then 0
      else if isMaximizing then
        fold_left Z.max
          (map (fun m => value self n' (place cells m (AI.ai self)) false)
               (empties cells))
          INT_MIN
      else
        fold_left Z.min
          (map (fun m => value self n' (place cells m (AI.human self)) true)
               (empties cells))
          INT_MAX
    end
  end.

(** The score [findBestMove] gives to a move: the value of the position
    after it, with the opponent (the minimizer) to play. *)
Definition move_score (self : AI.t) (cells : t) (m : Z * Z) : Z :=
  value self AI.FUEL (place cells m (AI.ai self)) false.

(** The running best of the loop of [findBestMove]. *)
Definition pick (sc : Z * Z -> Z) (ms : list (Z * Z)) (acc : Z * (Z * Z))
  : Z * (Z * Z) :=
  fold_left (fun best m => if sc m >? fst best then (sc m, m) else best)
            ms acc.

End AISpec.

Module GameSpec.
Import BoardSpec AISpec Game.

(** The object as the constructor and the methods keep it: nine cells, and
    the AI playing O against X. *)
Definition valid (g : Game.t) : Prop :=
  Board.wf (board g) /\ ai g = AI.Make O X.

(** Both counters can still be incremented. *)
Definition headroom (g : Game.t) : Prop :=
  INT_MIN <= scoreX g + 1 <= INT_MAX /\ INT_MIN <= scoreO g + 1 <= INT_MAX.

(** The position is finished: some line is complete or no cell is Empty. *)
Definition terminal (cells : Board.t) : bool :=
  match winner cells with
  | Some _ => true
  | None => full cells
  end.

(** The player [switchTurn] hands the turn to. *)
Definition other (p : Cell) : Cell := if Cell_eqb p X then O else X.

(** The state [checkGameState] leaves, when it has one. *)
Definition settle (g : Game.t) : Game.t :=
  match winner (board g) with
  | Some p =>
      let g1 := set_winnerOpt (Some p) (set_over true g) in
      if Cell_eqb p X then set_scoreX (scoreX g + 1) g1
      else set_scoreO (scoreO g + 1) g1
  | None =>
      if full (board g) then set_winnerOpt None (set_over true g) else g
  end.

(** The state after mark [p] is put on slot [i]: the terminal check, then
    the turn flips if the session is still in progress. *)
Definition after_move (p : Cell) (i : nat) (g : Game.t) : Game.t :=
  let g1 := settle (set_board (<[i := p]> (board g)) g) in
  if over g1 then g1 else set_current (other (current g1)) g1.

(** One call of a command of the session that returns. *)
Inductive step : Game.t -> Game.t -> Prop :=
  | step_playMove (g g' : Game.t) (r c : Z) (ok : bool) :
      in_range r c -> playMove r c g = Ok (ok, g') -> step g g'
  | step_aiMove (g g' : Game.t) :
      aiMove g = Ok (tt, g') -> step g g'
  | step_restart (g g' : Game.t) :
      restart g = Ok (tt, g') -> step g g'.

(** The states the session can be in, starting from [Game()]. *)
Inductive reachable : Game.t -> Prop :=
  | reach_init : reachable Game.init
  | reach_step (g g' : Game.t) : reachable g -> step g g' -> reachable g'.

(** The invariant of the session: the terminal flag agrees with the board
    and with the stored winner. *)
Definition inv (g : Game.t) : Prop :=
  valid g /\
  (over g = false -> terminal (board g) = false /\ winnerOpt g = None) /\
  (forall w : Cell, winnerOpt g = Some w -> over g = true).

End GameSpec.

Module PlaySpec.
Import BoardSpec AISpec Game GameSpec.

(** Number of cells that hold mark [p]. *)
Definition count_mark (p : Cell) (cells : Board.t) : nat :=
  length (List.filter (Cell_eqb p) cells).

(** All complete lines of the board belong to one player. *)
Definition one_sided (cells : Board.t) : Prop :=
  forall (l l' : nat * nat * nat) (p q : Cell),
    In l lines -> In l' lines ->
    complete cells l p -> complete cells l' q -> p = q.

(** What a finished move adds to the counter of player [p]. *)
Definition gain (p : Cell) (w : option Cell) : Z :=
  match w with
  | Some q => if Cell_eqb q p then 1 else 0
  | None => 0
  end.

(** The states the session goes through when it is driven by the event
    loop of the GUI, starting from [Game()]. *)
Inductive gui_reachable : Game.t -> Prop :=
  | gui_init : gui_reachable Game.init
  | gui_event (g g' : Game.t) (e : GUI.Event) :
      gui_reachable g -> GUI.handleEvent e g = Ok (tt, g') ->
      gui_reachable g'.

(** X has no complete line that [checkWinner] reports. *)
Definition not_won_by_X (cells : Board.t) : bool :=
  match winner cells with
  | Some w => negb (Cell_eqb w X)
  | None => true
  end.

(** With X to move on an unfinished board, whatever X plays on the next [n]
    turns, each answered by the move [findBestMove] picks for O, X never
    completes a line. *)
Fixpoint safe (n : nat) (cells : Board.t) : bool :=
  match n with
  | 0%nat => false
  | S n' =>
    forallb (fun i =>
        match cells !! i with
        | Some Empty =>
          let b1 := <[i := X]> cells in
          if terminal b1 then not_won_by_X b1
          else match by_value (AI.findBestMove (AI.Make O X)) b1 with
               | Ok best =>
                 let b2 := place b1 best O in
                 if terminal b2 then not_won_by_X b2 else safe n' b2
               | Bad _ => false
               end
        | _ => true
        end)
      (seq 0 9)
  end.


(** The marks on the board are those of a game played in turns, X first. *)
Definition legal (g : Game.t) : Prop :=
  (count_mark X (board g) = count_mark O (board g) \/
   count_mark X (board g) = S (count_mark O (board g))) /\
  (over g = false ->
   (current g = X /\ count_mark X (board g) = count_mark O (board g)) \/
   (current g = O /\ count_mark X (board g) = S (count_mark O (board g)))).

(** A finished session stores what the board shows. *)
Definition finished (g : Game.t) : Prop :=
  one_sided (board g) /\
  (over g = true ->
   terminal (board g) = true /\ winnerOpt g = winner (board g)).

(** Against the computer X has not won, and while the game goes on it is
    X's turn on a board from which X cannot win. *)
Definition guarded (g : Game.t) : Prop :=
  mode g = HumanVsAI ->
  winnerOpt g <> Some X /\
  (over g = false ->
   current g = X /\ exists n : nat, safe n (board g) = true).

(** The invariant of the session under the event loop. *)
Definition gui_inv (g : Game.t) : Prop :=
  inv g /\ finished g /\ legal g /\ guarded g.

End PlaySpec.

(** * Properties *)

(** ** Running the monad *)

Lemma int_ok {S} (z : Z) (s : S) :
  INT_MIN <= z <= INT_MAX -> int z s = Ok (z, s).
Proof.
  intros H. unfold int, in_int.
  destruct (Z.leb_spec INT_MIN z); [|lia].
  destruct (Z.leb_spec z INT_MAX); [|lia].
  reflexivity.
Qed.

Lemma int_bad {S} (z : Z) (s : S) :
  ~ (INT_MIN <= z <= INT_MAX) -> int z s = Bad SignedOverflow.
Proof.
  intros H. unfold int, in_int.
  destruct (Z.leb_spec INT_MIN z); simpl; [|reflexivity].
  destruct (Z.leb_spec z INT_MAX); simpl; [lia|reflexivity].
Qed.

Lemma bind_ok {S A B} (m : M S A) (k : A -> M S B) (s s' : S) (a : A) :
  m s = Ok (a, s') -> bind m k s = k a s'.
Proof. intros H. unfold bind. rewrite H. reflexivity. Qed.

Lemma bind_bad {S A B} (m : M S A) (k : A -> M S B) (s : S) (f : Fault) :
  m s = Bad f -> bind m k s = Bad f.
Proof. intros H. unfold bind. rewrite H. reflexivity. Qed.

Lemma first_hit_cons {S A B} (f : A -> M S (option B)) (x : A) (l : list A)
    (s : S) (v : option B) :
  f x s = Ok (v, s) ->
  first_hit f (x :: l) s
  = match v with Some b => Ok (Some b, s) | None => first_hit f l s end.
Proof.
  intros H. cbn [first_hit]. rewrite (bind_ok _ _ _ _ _ H).
  destruct v; reflexivity.
Qed.

Ltac run_int :=
  erewrite bind_ok
    by (apply int_ok; unfold Board.SIZE, INT_MIN, INT_MAX; lia).

Lemma Cell_eqb_eq (a b : Cell) : Cell_eqb a b = true <-> a = b.
Proof. unfold Cell_eqb. apply bool_decide_eq_true. Qed.

Lemma Cell_eqb_neq (a b : Cell) : Cell_eqb a b = false <-> a <> b.
Proof. unfold Cell_eqb. apply bool_decide_eq_false. Qed.

Lemma Cell_eqb_refl (a : Cell) : Cell_eqb a a = true.
Proof. apply Cell_eqb_eq. reflexivity. Qed.

(** ** Board: what each method computes on a nine-cell array *)

Module BoardFacts.
Import Board BoardSpec.

Lemma in_range_addressable (r c : Z) : in_range r c -> addressable r c.
Proof. unfold in_range, addressable, SIZE, INT_MIN, INT_MAX. lia. Qed.

Lemma wf_lookup (cells : t) (i : nat) :
  wf cells -> (i < 9)%nat -> exists v, cells !! i = Some v.
Proof.
  intros Hwf Hi. apply lookup_lt_is_Some_2. unfold wf in Hwf. lia.
Qed.

Lemma wf_insert (cells : t) (i : nat) (v : Cell) :
  wf cells -> wf (<[i := v]> cells).
Proof. unfold wf. rewrite length_insert. auto. Qed.

Lemma wf_init : wf init.
Proof. reflexivity. Qed.

Lemma index_run (r c : Z) (cells : t) :
  addressable r c -> index r c cells = Ok (r * SIZE + c, cells).
Proof.
  intros [H1 H2]. unfold index, bind.
  rewrite int_ok by exact H1.
  rewrite int_ok; [reflexivity|].
  unfold SIZE, INT_MIN, INT_MAX in *. lia.
Qed.

Lemma at_run (idx : Z) (cells : t) (v : Cell) :
  0 <= idx -> cells !! Z.to_nat idx = Some v -> at_ idx cells = Ok (v, cells).
Proof.
  intros H0 Hv. unfold at_.
  destruct (Z.ltb_spec idx 0); [lia|]. rewrite Hv. reflexivity.
Qed.

Lemma at_bad (idx : Z) (cells : t) :
  wf cells -> ~ (0 <= idx < SIZE * SIZE) -> at_ idx cells = Bad OutOfBounds.
Proof.
  intros Hwf H. unfold at_.
  destruct (Z.ltb_spec idx 0); [reflexivity|].
  rewrite lookup_ge_None_2; [reflexivity|].
  unfold wf in Hwf. unfold SIZE in H. lia.
Qed.

Lemma store_run (idx : Z) (cells : t) (v w : Cell) :
  0 <= idx -> cells !! Z.to_nat idx = Some w ->
  store idx v cells = Ok (tt, <[Z.to_nat idx := v]> cells).
Proof.
  intros H0 Hw. unfold store.
  destruct (Z.ltb_spec idx 0); [lia|]. rewrite Hw. reflexivity.
Qed.

Lemma get_run (r c : Z) (cells : t) (v : Cell) :
  addressable r c -> cells !! slot r c = Some v ->
  get r c cells = Ok (v, cells).
Proof.
  intros Ha Hv. unfold get, bind. rewrite index_run by exact Ha.
  apply at_run; [apply Ha | exact Hv].
Qed.

Lemma makeMove_empty (r c : Z) (p : Cell) (cells : t) :
  addressable r c -> cells !! slot r c = Some Empty ->
  makeMove r c p cells = Ok (true, <[slot r c := p]> cells).
Proof.
  intros Ha Hv. unfold makeMove, bind. rewrite index_run by exact Ha.
  rewrite (at_run _ _ Empty); [|apply Ha|exact Hv].
  rewrite Cell_eqb_refl.
  rewrite (store_run _ _ _ Empty); [reflexivity|apply Ha|exact Hv].
Qed.

Lemma makeMove_occupied (r c : Z) (p v : Cell) (cells : t) :
  addressable r c -> cells !! slot r c = Some v -> v <> Empty ->
  makeMove r c p cells = Ok (false, cells).
Proof.
  intros Ha Hv Hne. unfold makeMove, bind. rewrite index_run by exact Ha.
  rewrite (at_run _ _ v); [|apply Ha|exact Hv].
  apply Cell_eqb_neq in Hne. rewrite Hne. reflexivity.
Qed.

Lemma undoMove_run (r c : Z) (v : Cell) (cells : t) :
  addressable r c -> cells !! slot r c = Some v ->
  undoMove r c cells = Ok (tt, <[slot r c := Empty]> cells).
Proof.
  intros Ha Hv. unfold undoMove, bind. rewrite index_run by exact Ha.
  apply (store_run _ _ _ v); [apply Ha|exact Hv].
Qed.

Lemma insert_undo (cells : t) (i : nat) (p : Cell) :
  cells !! i = Some Empty -> <[i := Empty]> (<[i := p]> cells) = cells.
Proof.
  intros H. rewrite list_insert_insert_eq. apply list_insert_id. exact H.
Qed.

(** *** Lines and the winner *)

Lemma occupant_Some (cells : t) (l : nat * nat * nat) (p : Cell) :
  occupant cells l = Some p <-> complete cells l p.
Proof.
  unfold occupant, complete.
  destruct (cells !! l.1.1) as [a|], (cells !! l.1.2) as [b|],
    (cells !! l.2) as [c|]; try (split; [discriminate|intros (_&?&?&?); congruence]).
  destruct (Cell_eqb a Empty) eqn:Ea.
  { apply Cell_eqb_eq in Ea. split; [discriminate|].
    intros (?&?&_). congruence. }
  apply Cell_eqb_neq in Ea.
  destruct (Cell_eqb a b) eqn:Eb; simpl.
  - apply Cell_eqb_eq in Eb. destruct (Cell_eqb a c) eqn:Ec.
    + apply Cell_eqb_eq in Ec. subst. split.
      * intros [= <-]. auto.
      * intros (_&?&_). congruence.
    + apply Cell_eqb_neq in Ec. split; [discriminate|].
      intros (_&?&_&?). congruence.
  - apply Cell_eqb_neq in Eb. split; [discriminate|].
    intros (_&?&?&_). congruence.
Qed.

Lemma occupant_None (cells : t) (l : nat * nat * nat) :
  occupant cells l = None <-> forall p, ~ complete cells l p.
Proof.
  split.
  - intros H p Hp. apply occupant_Some in Hp. congruence.
  - intros H. destruct (occupant cells l) as [p|] eqn:E; [|reflexivity].
    apply occupant_Some in E. destruct (H p E).
Qed.

Lemma first_complete_Some (cells : t) (ls : list (nat * nat * nat)) (p : Cell) :
  first_complete cells ls = Some p <->
  exists (n : nat) (l : nat * nat * nat),
    ls !! n = Some l /\ complete cells l p /\
    forall (m : nat) (l' : nat * nat * nat) (q : Cell),
      (m < n)%nat -> ls !! m = Some l' -> ~ complete cells l' q.
Proof.
  induction ls as [|l ls IH]; simpl.
  - split; [discriminate|]. intros (n&l&H&_). rewrite lookup_nil in H.
    discriminate.
  - destruct (occupant cells l) as [q|] eqn:E.
    + split.
      * intros [= ->]. exists 0%nat, l. split; [reflexivity|].
        split; [apply occupant_Some; exact E|]. intros; lia.
      * intros (n&l'&Hn&Hc&Hfirst). destruct n as [|n].
        -- simpl in Hn. injection Hn as <-. apply occupant_Some in Hc.
           congruence.
        -- apply occupant_Some in E.
           destruct (Hfirst 0%nat l q); [lia|reflexivity|exact E].
    + rewrite IH. split.
      * intros (n&l'&Hn&Hc&Hfirst). exists (S n), l'.
        split; [exact Hn|]. split; [exact Hc|].
        intros [|m] l'' q Hm Hl''.
        -- simpl in Hl''. injection Hl'' as <-.
           apply (proj1 (occupant_None _ _) E).
        -- apply (Hfirst m); [lia|exact Hl''].
      * intros (n&l'&Hn&Hc&Hfirst). destruct n as [|n].
        -- simpl in Hn. injection Hn as <-. apply occupant_Some in Hc.
           congruence.
        -- exists n, l'. split; [exact Hn|]. split; [exact Hc|].
           intros m l'' q Hm Hl''. apply (Hfirst (S m)); [lia|exact Hl''].
Qed.

Lemma first_complete_None (cells : t) (ls : list (nat * nat * nat)) :
  first_complete cells ls = None <->
  forall (l : nat * nat * nat) (p : Cell), l ∈ ls -> ~ complete cells l p.
Proof.
  induction ls as [|l ls IH]; simpl.
  - split; [|reflexivity]. intros _ l p H. inversion H.
  - destruct (occupant cells l) as [q|] eqn:E.
    + split; [discriminate|]. intros H. apply occupant_Some in E.
      destruct (H l q); [left|exact E].
    + rewrite IH. split.
      * intros H l' p Hin. inversion Hin; subst.
        -- apply (proj1 (occupant_None _ _) E).
        -- apply H. assumption.
      * intros H l' p Hin. apply H. right. exact Hin.
Qed.

Lemma first_complete_app (cells : t) (l1 l2 : list (nat * nat * nat)) :
  first_complete cells (l1 ++ l2)
  = match first_complete cells l1 with
    | Some p => Some p
    | None => first_complete cells l2
    end.
Proof.
  induction l1 as [|l l1 IH]; simpl; [reflexivity|].
  destruct (occupant cells l); [reflexivity|exact IH].
Qed.

Lemma line_run (i j k : nat) (cells : t) :
  wf cells -> (i < 9)%nat -> (j < 9)%nat -> (k < 9)%nat ->
  line (Z.of_nat i) (Z.of_nat j) (Z.of_nat k) cells
  = Ok (occupant cells (i, j, k), cells).
Proof.
  intros Hwf Hi Hj Hk.
  destruct (wf_lookup cells i Hwf Hi) as [a Ha].
  destruct (wf_lookup cells j Hwf Hj) as [b Hb].
  destruct (wf_lookup cells k Hwf Hk) as [c Hc].
  assert (Ri : at_ (Z.of_nat i) cells = Ok (a, cells))
    by (apply at_run; [lia|rewrite Nat2Z.id; exact Ha]).
  assert (Rj : at_ (Z.of_nat j) cells = Ok (b, cells))
    by (apply at_run; [lia|rewrite Nat2Z.id; exact Hb]).
  assert (Rk : at_ (Z.of_nat k) cells = Ok (c, cells))
    by (apply at_run; [lia|rewrite Nat2Z.id; exact Hc]).
  unfold line, occupant; simpl. rewrite Ha, Hb, Hc.
  rewrite (bind_ok _ _ _ _ _ Ri).
  destruct (Cell_eqb a Empty); [reflexivity|].
  rewrite (bind_ok _ _ _ _ _ Ri), (bind_ok _ _ _ _ _ Rj).
  destruct (Cell_eqb a b); simpl; [|reflexivity].
  rewrite (bind_ok _ _ _ _ _ Ri), (bind_ok _ _ _ _ _ Rk).
  destruct (Cell_eqb a c); simpl; [|reflexivity].
  rewrite (bind_ok _ _ _ _ _ Ri). reflexivity.
Qed.

(** [checkWinner] leaves the board alone and finds the first complete line. *)
Lemma checkWinner_run (cells : t) :
  wf cells -> checkWinner cells = Ok (winner cells, cells).
Proof.
  intros Hwf. unfold checkWinner, winner, lines.
  assert (L : forall i j k : nat, (i < 9)%nat -> (j < 9)%nat -> (k < 9)%nat ->
            forall zi zj zk : Z, zi = Z.of_nat i -> zj = Z.of_nat j ->
              zk = Z.of_nat k ->
              line zi zj zk cells = Ok (occupant cells (i, j, k), cells)).
  { intros i j k Hi Hj Hk zi zj zk -> -> ->. apply line_run; assumption. }
  change (seqZ 0 SIZE) with [0; 1; 2].
  assert (Rrows : first_hit (fun r =>
              do i <- int (r * SIZE);
              do j <- int (r * SIZE + 1);
              do k <- int (r * SIZE + 2);
              line i j k) [0; 1; 2] cells
            = Ok (first_complete cells rows, cells)).
  { unfold rows.
    erewrite first_hit_cons
      by (do 3 run_int; apply (L 0 1 2)%nat; first [lia|reflexivity]).
    cbn [first_complete]. destruct (occupant cells _); [reflexivity|].
    erewrite first_hit_cons
      by (do 3 run_int; apply (L 3 4 5)%nat; first [lia|reflexivity]).
    destruct (occupant cells _); [reflexivity|].
    erewrite first_hit_cons
      by (do 3 run_int; apply (L 6 7 8)%nat; first [lia|reflexivity]).
    destruct (occupant cells _); reflexivity. }
  assert (Rcols : first_hit (fun c =>
              do j <- int (SIZE + c);
              do k <- int (2 * SIZE + c);
              line c j k) [0; 1; 2] cells
            = Ok (first_complete cells cols, cells)).
  { unfold cols.
    erewrite first_hit_cons
      by (do 2 run_int; apply (L 0 3 6)%nat; first [lia|reflexivity]).
    cbn [first_complete]. destruct (occupant cells _); [reflexivity|].
    erewrite first_hit_cons
      by (do 2 run_int; apply (L 1 4 7)%nat; first [lia|reflexivity]).
    destruct (occupant cells _); [reflexivity|].
    erewrite first_hit_cons
      by (do 2 run_int; apply (L 2 5 8)%nat; first [lia|reflexivity]).
    destruct (occupant cells _); reflexivity. }
  rewrite (bind_ok _ _ _ _ _ Rrows), first_complete_app.
  destruct (first_complete cells rows); [reflexivity|].
  rewrite (bind_ok _ _ _ _ _ Rcols), first_complete_app.
  destruct (first_complete cells cols); [reflexivity|].
  unfold diagonals. cbn [first_complete].
  erewrite bind_ok by (apply (L 0 4 8)%nat; first [lia|reflexivity]).
  destruct (occupant cells (0, 4, 8)%nat); [reflexivity|].
  erewrite bind_ok by (apply (L 2 4 6)%nat; first [lia|reflexivity]).
  destruct (occupant cells (2, 4, 6)%nat); reflexivity.
Qed.

(** *** Available moves *)

Lemma coords_eq :
  coords = [(0, 0); (0, 1); (0, 2); (1, 0); (1, 1); (1, 2);
            (2, 0); (2, 1); (2, 2)].
Proof. reflexivity. Qed.

Lemma coords_in_range (m : Z * Z) : In m coords -> in_range (fst m) (snd m).
Proof.
  rewrite coords_eq. simpl.
  intros H. unfold in_range, SIZE.
  repeat (destruct H as [<-|H]; [simpl; lia|]). destruct H.
Qed.

Lemma in_range_coords (r c : Z) : in_range r c -> In (r, c) coords.
Proof.
  unfold in_range, SIZE. intros [Hr Hc]. rewrite coords_eq.
  assert (r = 0 \/ r = 1 \/ r = 2) as [->|[->| ->]] by lia;
    assert (c = 0 \/ c = 1 \/ c = 2) as [->|[->| ->]] by lia;
    simpl; tauto.
Qed.

Lemma empties_spec (cells : t) (m : Z * Z) :
  In m (empties cells) <->
  in_range (fst m) (snd m) /\ cells !! slot (fst m) (snd m) = Some Empty.
Proof.
  unfold empties. rewrite filter_In. unfold is_empty_at. split.
  - intros [Hin He]. split; [apply coords_in_range; exact Hin|].
    destruct (cells !! slot m.1 m.2) as [v|]; [|discriminate].
    apply Cell_eqb_eq in He. congruence.
  - intros [Hr He]. split.
    + destruct m as [r c]. apply in_range_coords. exact Hr.
    + rewrite He. reflexivity.
Qed.

Lemma isFull_run (cells : t) : isFull cells = Ok (full cells, cells).
Proof. reflexivity. Qed.

Lemma inner_loop_run (cells : t) (r : Z) (cs : list Z) (acc : list (Z * Z)) :
  wf cells -> 0 <= r < SIZE -> Forall (fun c => 0 <= c < SIZE) cs ->
  for_each (fun moves c =>
      do idx <- index r c;
      do v <- at_ idx;
      if Cell_eqb v Empty then ret (moves ++ [(r, c)]) else ret moves)
    acc cs cells
  = Ok (acc ++ List.filter (is_empty_at cells) (map (pair r) cs), cells).
Proof.
  intros Hwf Hr Hcs. revert acc.
  induction Hcs as [|c cs Hc Hcs IH]; intros acc.
  - simpl. rewrite app_nil_r. reflexivity.
  - cbn [for_each map List.filter].
    assert (Ha : addressable r c)
      by (apply in_range_addressable; split; assumption).
    destruct (wf_lookup cells (slot r c) Hwf) as [v Hv].
    { unfold slot. unfold SIZE in *. lia. }
    rewrite (bind_ok _ _ cells cells
               (if Cell_eqb v Empty then acc ++ [(r, c)] else acc)).
    + rewrite IH.
      replace (is_empty_at cells (r, c)) with (Cell_eqb v Empty)
        by (unfold is_empty_at; simpl; rewrite Hv; reflexivity).
      destruct (Cell_eqb v Empty); [|reflexivity].
      rewrite <- app_assoc. reflexivity.
    + rewrite (bind_ok _ _ _ _ _ (index_run r c cells Ha)).
      rewrite (bind_ok _ _ cells cells v).
      * destruct (Cell_eqb v Empty); reflexivity.
      * apply at_run; [apply Ha|exact Hv].
Qed.

Lemma outer_loop_run (cells : t) (rs : list Z) (acc : list (Z * Z)) :
  wf cells -> Forall (fun r => 0 <= r < SIZE) rs ->
  for_each (fun moves r =>
      for_each (fun moves c =>
          do idx <- index r c;
          do v <- at_ idx;
          if Cell_eqb v Empty then ret (moves ++ [(r, c)]) else ret moves)
        moves (seqZ 0 SIZE))
    acc rs cells
  = Ok (acc ++ List.filter (is_empty_at cells) (flat_map row_coords rs),
        cells).
Proof.
  intros Hwf Hrs. revert acc.
  induction Hrs as [|r rs Hr Hrs IH]; intros acc.
  - simpl. rewrite app_nil_r. reflexivity.
  - cbn [for_each flat_map].
    erewrite bind_ok.
    2: { apply inner_loop_run; [exact Hwf|exact Hr|].
         change (seqZ 0 SIZE) with [0; 1; 2]. unfold SIZE.
         repeat constructor; lia. }
    rewrite IH, List.filter_app, <- app_assoc. reflexivity.
Qed.

(** [availableMoves] leaves the board alone and lists its Empty cells in
    row-major order. *)
Lemma availableMoves_run (cells : t) :
  wf cells -> availableMoves cells = Ok (empties cells, cells).
Proof.
  intros Hwf. unfold availableMoves, empties, coords.
  rewrite outer_loop_run; [reflexivity|exact Hwf|].
  change (seqZ 0 SIZE) with [0; 1; 2]. unfold SIZE.
  repeat constructor; lia.
Qed.

Lemma full_no_empty (cells : t) (i : nat) :
  full cells = true -> cells !! i <> Some Empty.
Proof.
  unfold full. rewrite forallb_forall. intros H Hi.
  apply list_elem_of_lookup_2, list_elem_of_In, H in Hi.
  discriminate.
Qed.

Lemma full_empties (cells : t) : full cells = true -> empties cells = [].
Proof.
  intros H. destruct (empties cells) as [|m ms] eqn:E; [reflexivity|].
  assert (Hin : In m (empties cells)) by (rewrite E; left; reflexivity).
  apply empties_spec in Hin. destruct Hin as [_ Hin].
  destruct (full_no_empty _ _ H Hin).
Qed.

Lemma not_full_empties (cells : t) :
  wf cells -> full cells = false -> empties cells <> [].
Proof.
  intros Hwf Hfull Hnil.
  assert (Hall : forall m, In m coords -> is_empty_at cells m = false).
  { intros m Hm. destruct (is_empty_at cells m) eqn:E; [|reflexivity].
    assert (Hin : In m (empties cells))
      by (unfold empties; apply filter_In; auto).
    rewrite Hnil in Hin. destruct Hin. }
  unfold wf in Hwf.
  do 9 (destruct cells as [|? cells]; [discriminate|]).
  destruct cells; [|discriminate].
  rewrite coords_eq in Hall. unfold is_empty_at, slot, SIZE in Hall.
  pose proof (Hall (0, 0) ltac:(simpl; tauto)) as H0.
  pose proof (Hall (0, 1) ltac:(simpl; tauto)) as H1.
  pose proof (Hall (0, 2) ltac:(simpl; tauto)) as H2.
  pose proof (Hall (1, 0) ltac:(simpl; tauto)) as H3.
  pose proof (Hall (1, 1) ltac:(simpl; tauto)) as H4.
  pose proof (Hall (1, 2) ltac:(simpl; tauto)) as H5.
  pose proof (Hall (2, 0) ltac:(simpl; tauto)) as H6.
  pose proof (Hall (2, 1) ltac:(simpl; tauto)) as H7.
  pose proof (Hall (2, 2) ltac:(simpl; tauto)) as H8.
  simpl in H0, H1, H2, H3, H4, H5, H6, H7, H8.
  unfold full in Hfull. cbn [forallb] in Hfull.
  rewrite H0, H1, H2, H3, H4, H5, H6, H7, H8 in Hfull. discriminate.
Qed.

Lemma count_empty_insert (cells : t) (i : nat) (p : Cell) :
  cells !! i = Some Empty -> p <> Empty ->
  S (count_empty (<[i := p]> cells)) = count_empty cells.
Proof.
  unfold count_empty. revert i.
  induction cells as [|v cells IH]; intros i Hi Hp.
  - rewrite lookup_nil in Hi. discriminate.
  - destruct i as [|i]; simpl in *.
    + injection Hi as ->. apply Cell_eqb_neq in Hp. rewrite Hp.
      reflexivity.
    + destruct (Cell_eqb v Empty); simpl; rewrite (IH i Hi Hp); reflexivity.
Qed.

Lemma count_empty_le (cells : t) : (count_empty cells <= length cells)%nat.
Proof. unfold count_empty. apply List.filter_length_le. Qed.



End BoardFacts.

(** ** AI: minimax against its mathematical value *)

Module AIFacts.
Import Board BoardSpec BoardFacts AISpec.

Lemma fold_max_acc (l : list Z) (acc : Z) :
  acc <= fold_left Z.max l acc /\
  (forall x, In x l -> x <= fold_left Z.max l acc) /\
  (fold_left Z.max l acc = acc \/ In (fold_left Z.max l acc) l).
Proof.
  revert acc. induction l as [|y l IH]; intros acc; simpl.
  - split; [lia|]. split; [tauto|]. left. reflexivity.
  - destruct (IH (Z.max acc y)) as (H1 & H2 & H3). split; [lia|]. split.
    + intros x [<-|Hx]; [lia|apply H2; exact Hx].
    + destruct H3 as [H3|H3]; [|right; right; exact H3].
      rewrite H3. destruct (Z.max_spec acc y) as [[_ ->]|[_ ->]]; auto.
Qed.

Lemma fold_min_acc (l : list Z) (acc : Z) :
  fold_left Z.min l acc <= acc /\
  (forall x, In x l -> fold_left Z.min l acc <= x) /\
  (fold_left Z.min l acc = acc \/ In (fold_left Z.min l acc) l).
Proof.
  revert acc. induction l as [|y l IH]; intros acc; simpl.
  - split; [lia|]. split; [tauto|]. left. reflexivity.
  - destruct (IH (Z.min acc y)) as (H1 & H2 & H3). split; [lia|]. split.
    + intros x [<-|Hx]; [lia|apply H2; exact Hx].
    + destruct H3 as [H3|H3]; [|right; right; exact H3].
      rewrite H3. destruct (Z.min_spec acc y) as [[_ ->]|[_ ->]]; auto.
Qed.

Lemma fold_max_maximum (l : list Z) :
  l <> [] -> (forall x, In x l -> INT_MIN <= x) ->
  maximum_of (fold_left Z.max l INT_MIN) l.
Proof.
  intros Hne Hlo. destruct (fold_max_acc l INT_MIN) as (H1 & H2 & H3).
  split; [|exact H2]. destruct H3 as [H3|H3]; [|exact H3].
  destruct l as [|y l]; [congruence|].
  assert (y <= fold_left Z.max (y :: l) INT_MIN) by (apply H2; left; auto).
  assert (INT_MIN <= y) by (apply Hlo; left; auto).
  assert (Hy : y = fold_left Z.max (y :: l) INT_MIN) by lia.
  rewrite <- Hy. left. reflexivity.
Qed.

Lemma fold_min_minimum (l : list Z) :
  l <> [] -> (forall x, In x l -> x <= INT_MAX) ->
  minimum_of (fold_left Z.min l INT_MAX) l.
Proof.
  intros Hne Hhi. destruct (fold_min_acc l INT_MAX) as (H1 & H2 & H3).
  split; [|exact H2]. destruct H3 as [H3|H3]; [|exact H3].
  destruct l as [|y l]; [congruence|].
  assert (fold_left Z.min (y :: l) INT_MAX <= y) by (apply H2; left; auto).
  assert (y <= INT_MAX) by (apply Hhi; left; auto).
  assert (Hy : y = fold_left Z.min (y :: l) INT_MAX) by lia.
  rewrite <- Hy. left. reflexivity.
Qed.

Lemma fold_left_map {A B C} (f : B -> C -> B) (g : A -> C) (l : list A)
    (acc : B) :
  fold_left (fun b a => f b (g a)) l acc = fold_left f (map g l) acc.
Proof.
  revert acc. induction l as [|a l IH]; intros acc; simpl; [reflexivity|].
  apply IH.
Qed.

Section WithAI.

Variable self : AI.t.
Hypothesis ai_mark : AI.ai self <> Empty.
Hypothesis human_mark : AI.human self <> Empty.

Lemma scoreForWinner_bounds (w : Cell) : -10 <= AI.scoreForWinner self w <= 10.
Proof.
  unfold AI.scoreForWinner.
  destruct (Cell_eqb w (AI.ai self)); [lia|].
  destruct (Cell_eqb w (AI.human self)); lia.
Qed.

Lemma place_wf (cells : t) (m : Z * Z) (p : Cell) :
  wf cells -> wf (place cells m p).
Proof. apply wf_insert. Qed.

Lemma place_count (cells : t) (m : Z * Z) (p : Cell) :
  In m (empties cells) -> p <> Empty ->
  S (count_empty (place cells m p)) = count_empty cells.
Proof.
  intros Hm Hp. apply empties_spec in Hm. destruct Hm as [_ Hm].
  apply count_empty_insert; assumption.
Qed.

Lemma value_bounds (n : nat) (cells : t) (isMaximizing : bool) :
  wf cells -> -10 <= value self n cells isMaximizing <= 10.
Proof.
  revert cells isMaximizing.
  induction n as [|n IH]; intros cells isMax Hwf; simpl; [lia|].
  destruct (winner cells) as [w|]; [apply scoreForWinner_bounds|].
  destruct (full cells) eqn:Hfull; [lia|].
  pose proof (not_full_empties cells Hwf Hfull) as Hne.
  destruct isMax.
  - destruct (fold_max_maximum
                (map (fun m => value self n (place cells m (AI.ai self)) false)
                     (empties cells))) as [Hin _].
    + destruct (empties cells); [congruence|discriminate].
    + intros x Hx. apply in_map_iff in Hx. destruct Hx as (m & <- & _).
      specialize (IH (place cells m (AI.ai self)) false
                    (place_wf _ _ _ Hwf)).
      unfold INT_MIN. lia.
    + apply in_map_iff in Hin. destruct Hin as (m & <- & _).
      apply IH. apply place_wf. exact Hwf.
  - destruct (fold_min_minimum
                (map (fun m => value self n (place cells m (AI.human self)) true)
                     (empties cells))) as [Hin _].
    + destruct (empties cells); [congruence|discriminate].
    + intros x Hx. apply in_map_iff in Hx. destruct Hx as (m & <- & _).
      specialize (IH (place cells m (AI.human self)) true
                    (place_wf _ _ _ Hwf)).
      unfold INT_MAX. lia.
    + apply in_map_iff in Hin. destruct Hin as (m & <- & _).
      apply IH. apply place_wf. exact Hwf.
Qed.

(** Any fuel above the number of Empty cells gives the same value. *)
Lemma value_fuel (n n' : nat) (cells : t) (isMaximizing : bool) :
  (count_empty cells < n)%nat -> (count_empty cells < n')%nat ->
  value self n cells isMaximizing = value self n' cells isMaximizing.
Proof.
  revert n' cells isMaximizing.
  induction n as [|n IH]; intros n' cells isMax Hn Hn'; [lia|].
  destruct n' as [|n']; [lia|]. simpl.
  destruct (winner cells); [reflexivity|].
  destruct (full cells); [reflexivity|].
  destruct isMax; f_equal; apply map_ext_in; intros m Hm.
  - pose proof (place_count cells m _ Hm ai_mark). apply IH; lia.
  - pose proof (place_count cells m _ Hm human_mark). apply IH; lia.
Qed.

(** One iteration of the loops of [minimax] and [findBestMove] applies a
    move and later undoes it. *)
Lemma makeMove_place (cells : t) (m : Z * Z) (p : Cell) :
  In m (empties cells) ->
  makeMove (fst m) (snd m) p cells = Ok (true, place cells m p).
Proof.
  intros Hm. apply empties_spec in Hm. destruct Hm as [Hr He].
  apply makeMove_empty; [apply in_range_addressable; exact Hr|exact He].
Qed.

Lemma undoMove_place (cells : t) (m : Z * Z) (p : Cell) :
  In m (empties cells) ->
  undoMove (fst m) (snd m) (place cells m p) = Ok (tt, cells).
Proof.
  intros Hm. apply empties_spec in Hm. destruct Hm as [Hr He].
  rewrite (undoMove_run _ _ p).
  - unfold place. rewrite insert_undo by exact He. reflexivity.
  - apply in_range_addressable. exact Hr.
  - unfold place. apply list_lookup_insert_eq.
    apply lookup_lt_Some in He. exact He.
Qed.

Lemma minimax_run (n : nat) (cells : t) (depth : Z) (isMaximizing : bool) :
  wf cells -> (count_empty cells < n)%nat ->
  INT_MIN <= depth -> depth + Z.of_nat (count_empty cells) <= INT_MAX ->
  AI.minimax self n depth isMaximizing cells
  = Ok (value self n cells isMaximizing, cells).
Proof.
  revert cells depth isMaximizing.
  induction n as [|n IH]; intros cells d isMax Hwf Hn Hlo Hhi; [lia|].
  cbn [AI.minimax value].
  rewrite (bind_ok _ _ _ _ _ (checkWinner_run cells Hwf)).
  destruct (winner cells); [reflexivity|].
  rewrite (bind_ok _ _ _ _ _ (isFull_run cells)).
  destruct (full cells); [reflexivity|].
  destruct isMax;
    rewrite (bind_ok _ _ _ _ _ (availableMoves_run cells Hwf)).
  - assert (Loop : forall ms acc,
              (forall m, In m ms -> In m (empties cells)) ->
              for_each (fun best m =>
                  do_ makeMove (fst m) (snd m) (AI.ai self);
                  do d' <- int (d + 1);
                  do s <- AI.minimax self n d' false;
                  let best' := Z.max best s in
                  do_ undoMove (fst m) (snd m);
                  ret best') acc ms cells
              = Ok (fold_left Z.max
                      (map (fun m => value self n (place cells m (AI.ai self)) false)
                           ms) acc, cells)).
    { induction ms as [|m ms IHms]; intros acc Hsub; [reflexivity|].
      cbn [for_each map fold_left].
      assert (Hm : In m (empties cells)) by (apply Hsub; left; reflexivity).
      pose proof (place_count cells m _ Hm ai_mark) as Hc.
      erewrite bind_ok; [apply IHms; intros m' Hm'; apply Hsub; right; exact Hm'|].
      rewrite (bind_ok _ _ _ _ _ (makeMove_place cells m _ Hm)).
      rewrite (bind_ok _ _ _ _ _ (int_ok (d + 1) _ ltac:(lia))).
      erewrite bind_ok by (apply IH; [apply place_wf; exact Hwf|lia..]).
      cbv zeta.
      rewrite (bind_ok _ _ _ _ _ (undoMove_place cells m _ Hm)).
      reflexivity. }
    apply Loop. auto.
  - assert (Loop : forall ms acc,
              (forall m, In m ms -> In m (empties cells)) ->
              for_each (fun best m =>
                  do_ makeMove (fst m) (snd m) (AI.human self);
                  do d' <- int (d + 1);
                  do s <- AI.minimax self n d' true;
                  let best' := Z.min best s in
                  do_ undoMove (fst m) (snd m);
                  ret best') acc ms cells
              = Ok (fold_left Z.min
                      (map (fun m => value self n (place cells m (AI.human self)) true)
                           ms) acc, cells)).
    { induction ms as [|m ms IHms]; intros acc Hsub; [reflexivity|].
      cbn [for_each map fold_left].
      assert (Hm : In m (empties cells)) by (apply Hsub; left; reflexivity).
      pose proof (place_count cells m _ Hm human_mark) as Hc.
      erewrite bind_ok; [apply IHms; intros m' Hm'; apply Hsub; right; exact Hm'|].
      rewrite (bind_ok _ _ _ _ _ (makeMove_place cells m _ Hm)).
      rewrite (bind_ok _ _ _ _ _ (int_ok (d + 1) _ ltac:(lia))).
      erewrite bind_ok by (apply IH; [apply place_wf; exact Hwf|lia..]).
      cbv zeta.
      rewrite (bind_ok _ _ _ _ _ (undoMove_place cells m _ Hm)).
      reflexivity. }
    apply Loop. auto.
Qed.

(** *** findBestMove *)

Lemma wf_count (cells : t) : wf cells -> (count_empty cells <= 9)%nat.
Proof. intros H. pose proof (count_empty_le cells). unfold wf in H. lia. Qed.

(** On every position that arises after a move the search is given enough
    fuel and returns the value, with the board restored. *)
Lemma minimax_top (cells : t) (depth : Z) (isMaximizing : bool) :
  wf cells -> INT_MIN <= depth <= INT_MAX - 9 ->
  AI.minimax self AI.FUEL depth isMaximizing cells
  = Ok (value self AI.FUEL cells isMaximizing, cells).
Proof.
  intros Hwf Hd. pose proof (wf_count cells Hwf).
  apply minimax_run; [exact Hwf|change AI.FUEL with 10%nat; lia|lia|lia].
Qed.

Lemma findBestMove_run (cells : t) :
  wf cells ->
  AI.findBestMove self cells
  = Ok (snd (pick (move_score self cells) (empties cells) (INT_MIN, (-1, -1))),
        cells).
Proof.
  intros Hwf. unfold AI.findBestMove.
  rewrite (bind_ok _ _ _ _ _ (availableMoves_run cells Hwf)).
  assert (Loop : forall ms acc,
            (forall m, In m ms -> In m (empties cells)) ->
            for_each (fun best m =>
                do_ makeMove (fst m) (snd m) (AI.ai self);
                do score <- AI.minimax self AI.FUEL 0 false;
                do_ undoMove (fst m) (snd m);
                if score >? fst best then ret (score, m) else ret best)
              acc ms cells
            = Ok (pick (move_score self cells) ms acc, cells)).
  { induction ms as [|m ms IHms]; intros acc Hsub; [reflexivity|].
    cbn [for_each]. unfold pick. cbn [fold_left].
    assert (Hm : In m (empties cells)) by (apply Hsub; left; reflexivity).
    erewrite bind_ok; [apply IHms; intros m' Hm'; apply Hsub; right; exact Hm'|].
    rewrite (bind_ok _ _ _ _ _ (makeMove_place cells m _ Hm)).
    erewrite bind_ok
      by (apply minimax_top;
          [apply place_wf; exact Hwf|unfold INT_MIN, INT_MAX; lia]).
    rewrite (bind_ok _ _ _ _ _ (undoMove_place cells m _ Hm)).
    fold (move_score self cells m).
    destruct (move_score self cells m >? acc.1); reflexivity. }
  erewrite bind_ok by (apply Loop; auto). reflexivity.
Qed.

End WithAI.

(** [pick] keeps the first element that reaches the largest score. *)
Lemma pick_first_max (sc : Z * Z -> Z) (ms : list (Z * Z)) (a : Z)
    (b : Z * Z) :
  (pick sc ms (a, b) = (a, b) /\ forall m, In m ms -> sc m <= a) \/
  exists best pre post,
    pick sc ms (a, b) = (sc best, best) /\ ms = pre ++ best :: post /\
    a < sc best /\
    (forall m, In m pre -> sc m < sc best) /\
    (forall m, In m post -> sc m <= sc best).
Proof.
  revert a b. induction ms as [|m ms IH]; intros a b.
  - left. split; [reflexivity|]. intros m [].
  - unfold pick. cbn [fold_left fst]. fold (pick sc ms).
    destruct (Z.gtb_spec (sc m) a) as [Hgt|Hle].
    + right. destruct (IH (sc m) m) as [[Heq Hall]|Hex].
      * exists m, [], ms. repeat split; auto; try lia. intros ? [].
      * destruct Hex as (best & pre & post & Hp & -> & Hlt & Hpre & Hpost).
        exists best, (m :: pre), post. repeat split; auto; try lia.
        intros m' [<-|Hm']; [lia|apply Hpre; exact Hm'].
    + destruct (IH a b) as [[Heq Hall]|Hex].
      * left. split; [exact Heq|]. intros m' [<-|Hm']; [lia|auto].
      * right. destruct Hex as (best & pre & post & Hp & -> & Hlt & Hpre & Hpost).
        exists best, (m :: pre), post. repeat split; auto.
        intros m' [<-|Hm']; [lia|apply Hpre; exact Hm'].
Qed.

(** [findBestMove] returns an Empty cell, or (-1,-1) when there is none. *)
Lemma findBestMove_choice (self : AI.t) (cells : t) :
  AI.ai self <> Empty -> AI.human self <> Empty -> wf cells ->
  exists best : Z * Z,
    AI.findBestMove self cells = Ok (best, cells) /\
    ((empties cells = [] /\ best = (-1, -1)) \/ In best (empties cells)).
Proof.
  intros Hai Hhuman Hwf.
  rewrite (findBestMove_run self Hai Hhuman cells Hwf).
  eexists. split; [reflexivity|].
  destruct (pick_first_max (move_score self cells) (empties cells)
              INT_MIN (-1, -1)) as [[Hpick Hall]|Hex].
  - left. rewrite Hpick. split; [|reflexivity].
    destruct (empties cells) as [|m ms]; [reflexivity|]. exfalso.
    specialize (Hall m ltac:(left; reflexivity)).
    pose proof (value_bounds self AI.FUEL (place cells m (AI.ai self)) false
                  (place_wf _ _ _ Hwf)) as Hb.
    unfold move_score, INT_MIN in *. lia.
  - right. destruct Hex as (best & pre & post & Hpick & Hsplit & _).
    rewrite Hpick, Hsplit. cbn [snd]. apply in_or_app. right. left.
    reflexivity.
Qed.



End AIFacts.

(** ** Game: the session as a transition system *)

Module GameFacts.
Import BoardSpec BoardFacts AISpec AIFacts Game GameSpec.

Lemma bind_get {S B} (k : S -> M S B) (s : S) : bind get k s = k s s.
Proof. reflexivity. Qed.

Lemma bind_ret {S A B} (a : A) (k : A -> M S B) (s : S) :
  bind (ret a) k s = k a s.
Proof. reflexivity. Qed.

Lemma bind_modify {B} (f : Game.t -> Game.t) (k : unit -> M Game.t B)
    (g : Game.t) :
  bind (modify f) k g = k tt (f g).
Proof. reflexivity. Qed.

Lemma on_board_ok {A} (m : M Board.t A) (g : Game.t) (a : A) (b' : Board.t) :
  m (board g) = Ok (a, b') -> on_board m g = Ok (a, set_board b' g).
Proof. intros H. unfold on_board. rewrite H. reflexivity. Qed.

Lemma on_board_bad {A} (m : M Board.t A) (g : Game.t) (f : Fault) :
  m (board g) = Bad f -> on_board m g = Bad f.
Proof. intros H. unfold on_board. rewrite H. reflexivity. Qed.

Lemma set_board_same (g : Game.t) : set_board (board g) g = g.
Proof. destruct g. reflexivity. Qed.

Lemma checkGameState_run (g : Game.t) :
  Board.wf (board g) ->
  checkGameState g
  = match winner (board g) with
    | Some p =>
        if in_int ((if Cell_eqb p X then scoreX g else scoreO g) + 1)
        then Ok (tt, settle g) else Bad SignedOverflow
    | None => Ok (tt, settle g)
    end.
Proof.
  intros Hwf. unfold checkGameState, settle.
  rewrite (bind_ok _ _ _ _ _
             (on_board_ok _ g _ _ (checkWinner_run (board g) Hwf))).
  rewrite set_board_same.
  destruct (winner (board g)) as [p|].
  - rewrite !bind_modify.
    destruct (Cell_eqb p X); rewrite bind_get; unfold bind, int; simpl;
      match goal with |- context [in_int ?z] => destruct (in_int z) end;
      reflexivity.
  - rewrite (bind_ok _ _ _ _ _ (on_board_ok _ g _ _ (isFull_run (board g)))).
    rewrite set_board_same.
    destruct (full (board g)); reflexivity.
Qed.

Lemma checkGameState_headroom (g : Game.t) :
  Board.wf (board g) -> headroom g -> checkGameState g = Ok (tt, settle g).
Proof.
  intros Hwf [HX HO]. rewrite checkGameState_run by exact Hwf.
  destruct (winner (board g)) as [p|]; [|reflexivity].
  unfold in_int.
  destruct (Cell_eqb p X).
  - destruct (Z.leb_spec INT_MIN (scoreX g + 1)); [|lia].
    destruct (Z.leb_spec (scoreX g + 1) INT_MAX); [reflexivity|lia].
  - destruct (Z.leb_spec INT_MIN (scoreO g + 1)); [|lia].
    destruct (Z.leb_spec (scoreO g + 1) INT_MAX); [reflexivity|lia].
Qed.

Lemma checkGameState_inv (g g' : Game.t) (u : unit) :
  Board.wf (board g) -> checkGameState g = Ok (u, g') -> g' = settle g.
Proof.
  intros Hwf H. rewrite checkGameState_run in H by exact Hwf.
  destruct (winner (board g)) as [p|].
  - destruct (in_int _); [|discriminate]. congruence.
  - congruence.
Qed.

(** The tail shared by [playMove] and [aiMove]: mark, check, switch. *)
Lemma move_tail_run {A} (r c : Z) (p : Cell) (a : A) (g : Game.t) :
  Board.wf (board g) -> addressable r c ->
  board g !! slot r c = Some Empty ->
  (do_ on_board (Board.makeMove r c p);
   do_ checkGameState;
   do g1 <- get;
   do_ (if negb (over g1) then switchTurn else ret tt);
   ret a) g
  = match checkGameState (set_board (<[slot r c := p]> (board g)) g) with
    | Ok _ => Ok (a, after_move p (slot r c) g)
    | Bad f => Bad f
    end.
Proof.
  intros Hwf Ha He.
  rewrite (bind_ok _ _ _ _ _
             (on_board_ok _ g _ _ (makeMove_empty r c p (board g) Ha He))).
  set (g0 := set_board (<[slot r c := p]> (board g)) g).
  assert (Hwf0 : Board.wf (board g0)) by (apply wf_insert; exact Hwf).
  destruct (checkGameState g0) as [[u g1]|f] eqn:Hc.
  - rewrite (bind_ok _ _ _ _ _ Hc), bind_get.
    apply checkGameState_inv in Hc; [|exact Hwf0]. subst g1.
    unfold after_move. fold g0.
    destruct (over (settle g0)); reflexivity.
  - apply bind_bad. exact Hc.
Qed.

Lemma ai_tail_run (r c : Z) (p : Cell) (g : Game.t) :
  Board.wf (board g) -> addressable r c ->
  board g !! slot r c = Some Empty ->
  (do_ on_board (Board.makeMove r c p);
   do_ checkGameState;
   do g1 <- get;
   if negb (over g1) then switchTurn else ret tt) g
  = match checkGameState (set_board (<[slot r c := p]> (board g)) g) with
    | Ok _ => Ok (tt, after_move p (slot r c) g)
    | Bad f => Bad f
    end.
Proof.
  intros Hwf Ha He.
  rewrite (bind_ok _ _ _ _ _
             (on_board_ok _ g _ _
                (makeMove_empty r c p (board g) Ha He))).
  set (g0 := set_board (<[slot r c := p]> (board g)) g).
  assert (Hwf0 : Board.wf (board g0)) by (apply wf_insert; exact Hwf).
  destruct (checkGameState g0) as [[u g1]|f] eqn:Hc.
  - rewrite (bind_ok _ _ _ _ _ Hc), bind_get.
    apply checkGameState_inv in Hc; [|exact Hwf0]. subst g1.
    unfold after_move. fold g0.
    destruct (over (settle g0)); reflexivity.
  - apply bind_bad. exact Hc.
Qed.

(** *** playMove *)

Lemma playMove_over (r c : Z) (g : Game.t) :
  over g = true -> playMove r c g = Ok (false, g).
Proof. intros H. unfold playMove. rewrite bind_get, H. reflexivity. Qed.

Lemma playMove_occupied (r c : Z) (g : Game.t) :
  Board.wf (board g) -> over g = false -> addressable r c ->
  board g !! slot r c <> Some Empty -> playMove r c g = Ok (false, g).
Proof.
  intros Hwf Hover Ha Hne. unfold playMove. rewrite bind_get, Hover.
  destruct (wf_lookup (board g) (slot r c) Hwf) as [v Hv].
  { unfold slot. pose proof Ha as [_ Ha']. unfold Board.SIZE in *. lia. }
  rewrite (bind_ok _ _ _ _ _
             (on_board_ok _ g _ _ (get_run r c (board g) v Ha Hv))).
  rewrite set_board_same.
  replace (Cell_eqb v Empty) with false
    by (symmetry; apply Cell_eqb_neq; congruence).
  reflexivity.
Qed.

Lemma playMove_empty (r c : Z) (g : Game.t) :
  Board.wf (board g) -> over g = false -> addressable r c ->
  board g !! slot r c = Some Empty ->
  playMove r c g
  = match checkGameState
            (set_board (<[slot r c := current g]> (board g)) g) with
    | Ok _ => Ok (true, after_move (current g) (slot r c) g)
    | Bad f => Bad f
    end.
Proof.
  intros Hwf Hover Ha He. unfold playMove. rewrite bind_get, Hover.
  rewrite (bind_ok _ _ _ _ _
             (on_board_ok _ g _ _ (get_run r c (board g) Empty Ha He))).
  rewrite set_board_same, Cell_eqb_refl. cbn [negb]. rewrite bind_get.
  apply move_tail_run; assumption.
Qed.

Lemma playMove_unaddressable (r c : Z) (g : Game.t) :
  Board.wf (board g) -> over g = false -> ~ addressable r c ->
  exists f : Fault, playMove r c g = Bad f.
Proof.
  intros Hwf Hover Hna. unfold playMove. rewrite bind_get, Hover.
  assert (Hget : exists f, Board.get r c (board g) = Bad f).
  { unfold Board.get, Board.index.
    destruct (decide (INT_MIN <= r * Board.SIZE <= INT_MAX)) as [H1|H1].
    2: { exists SignedOverflow. apply bind_bad. apply bind_bad.
         apply int_bad. exact H1. }
    destruct (decide (INT_MIN <= r * Board.SIZE + c <= INT_MAX)) as [H2|H2].
    2: { exists SignedOverflow. apply bind_bad.
         rewrite (bind_ok _ _ _ _ _ (int_ok _ (board g) H1)).
         apply int_bad. exact H2. }
    exists OutOfBounds.
    erewrite bind_ok.
    2: { rewrite (bind_ok _ _ _ _ _ (int_ok _ (board g) H1)).
         apply int_ok. exact H2. }
    apply at_bad; [exact Hwf|].
    intros H3. apply Hna. split; assumption. }
  destruct Hget as [f Hf]. exists f. apply bind_bad.
  apply on_board_bad. exact Hf.
Qed.

(** *** aiMove *)

Lemma aiMove_over (g : Game.t) : over g = true -> aiMove g = Ok (tt, g).
Proof. intros H. unfold aiMove. rewrite bind_get, H. reflexivity. Qed.

Lemma aiMove_no_move (g : Game.t) (cells' : Board.t) :
  over g = false ->
  AI.findBestMove (ai g) (board g) = Ok ((-1, -1), cells') ->
  aiMove g = Ok (tt, g).
Proof.
  intros Hover Hfind. unfold aiMove. rewrite bind_get, Hover.
  unfold lift, by_value, bind. rewrite Hfind. reflexivity.
Qed.

Lemma aiMove_move (g : Game.t) (best : Z * Z) (cells' : Board.t) :
  Board.wf (board g) -> over g = false ->
  AI.findBestMove (ai g) (board g) = Ok (best, cells') ->
  In best (empties (board g)) ->
  aiMove g
  = match checkGameState
            (set_board (<[slot (fst best) (snd best) := O]> (board g)) g) with
    | Ok _ => Ok (tt, after_move O (slot (fst best) (snd best)) g)
    | Bad f => Bad f
    end.
Proof.
  intros Hwf Hover Hfind Hin. unfold aiMove. rewrite bind_get, Hover.
  apply empties_spec in Hin. destruct Hin as [Hr He].
  rewrite (bind_ok _ _ g g best)
    by (unfold lift, by_value; rewrite Hfind; reflexivity).
  cbv zeta.
  replace (fst best >=? 0) with true
    by (symmetry; apply Z.geb_le; unfold in_range in Hr; lia).
  apply ai_tail_run; [exact Hwf|apply in_range_addressable; exact Hr|exact He].
Qed.

(** *** restart, setMode and the mode switch of the GUI *)

Lemma restart_run (g : Game.t) :
  restart g
  = Ok (tt, Game.Make (replicate (length (board g)) Empty) X (mode g) (ai g)
                      false None (scoreX g) (scoreO g)).
Proof. reflexivity. Qed.

Lemma setMode_run (m : Mode) (g : Game.t) :
  setMode m g = Ok (tt, set_mode m g).
Proof. reflexivity. Qed.

Lemma toggleMode_run (g : Game.t) :
  GUI.toggleMode g
  = Ok (tt, Game.Make (replicate (length (board g)) Empty) X
                      (match mode g with
                       | HumanVsHuman => HumanVsAI
                       | HumanVsAI => HumanVsHuman
                       end)
                      (ai g) false None (scoreX g) (scoreO g)).
Proof. unfold GUI.toggleMode. destruct g as [b p [] a o w sx so]; reflexivity. Qed.

(** *** The state after a move *)

Lemma other_neq (p : Cell) : other p <> p.
Proof. destruct p; discriminate. Qed.

Lemma board_settle (g : Game.t) : board (settle g) = board g.
Proof.
  unfold settle. destruct (winner (board g)) as [p|].
  - destruct (Cell_eqb p X); reflexivity.
  - destruct (full (board g)); reflexivity.
Qed.

Lemma over_settle (g : Game.t) :
  over (settle g) = if terminal (board g) then true else over g.
Proof.
  unfold settle, terminal. destruct (winner (board g)) as [p|].
  - destruct (Cell_eqb p X); reflexivity.
  - destruct (full (board g)); reflexivity.
Qed.

Lemma current_settle (g : Game.t) : current (settle g) = current g.
Proof.
  unfold settle. destruct (winner (board g)) as [p|].
  - destruct (Cell_eqb p X); reflexivity.
  - destruct (full (board g)); reflexivity.
Qed.

Lemma frame_settle (g : Game.t) :
  mode (settle g) = mode g /\ ai (settle g) = ai g.
Proof.
  unfold settle. destruct (winner (board g)) as [p|].
  - destruct (Cell_eqb p X); split; reflexivity.
  - destruct (full (board g)); split; reflexivity.
Qed.

Lemma winnerOpt_settle (g : Game.t) :
  winnerOpt (settle g)
  = if terminal (board g) then winner (board g) else winnerOpt g.
Proof.
  unfold settle, terminal. destruct (winner (board g)) as [p|].
  - destruct (Cell_eqb p X); reflexivity.
  - destruct (full (board g)); reflexivity.
Qed.

Lemma board_after_move (p : Cell) (i : nat) (g : Game.t) :
  board (after_move p i g) = <[i := p]> (board g).
Proof.
  unfold after_move. cbv zeta.
  destruct (over (settle _)); cbn [board set_current];
    rewrite board_settle; reflexivity.
Qed.

Lemma over_after_move (p : Cell) (i : nat) (g : Game.t) :
  over g = false ->
  over (after_move p i g) = terminal (<[i := p]> (board g)).
Proof.
  intros Hover. unfold after_move. cbv zeta.
  destruct (over (settle _)) eqn:E; cbn [over set_current]; rewrite ?E;
    rewrite over_settle in E; cbn [board over set_board] in E;
    destruct (terminal _); congruence.
Qed.

Lemma current_after_move (p : Cell) (i : nat) (g : Game.t) :
  current (after_move p i g)
  = if over (after_move p i g) then current g else other (current g).
Proof.
  unfold after_move. cbv zeta.
  destruct (over (settle _)) eqn:E; cbn [over current set_current];
    rewrite ?E, current_settle; reflexivity.
Qed.

Lemma winnerOpt_after_move (p : Cell) (i : nat) (g : Game.t) :
  winnerOpt (after_move p i g)
  = if terminal (<[i := p]> (board g))
    then winner (<[i := p]> (board g)) else winnerOpt g.
Proof.
  unfold after_move. cbv zeta.
  destruct (over (settle _)); cbn [winnerOpt set_current];
    rewrite winnerOpt_settle; reflexivity.
Qed.

Lemma frame_after_move (p : Cell) (i : nat) (g : Game.t) :
  mode (after_move p i g) = mode g /\ ai (after_move p i g) = ai g.
Proof.
  unfold after_move. cbv zeta.
  destruct (over (settle _)); cbn [mode ai set_current];
    apply (frame_settle (set_board _ g)).
Qed.

(** *** Reachable states and their invariant *)

Lemma inv_init : inv Game.init.
Proof.
  split; [split; reflexivity|]. split.
  - intros _. split; reflexivity.
  - intros w H. discriminate.
Qed.

Lemma inv_after_move (p : Cell) (i : nat) (g : Game.t) :
  inv g -> over g = false -> inv (after_move p i g).
Proof.
  intros ([Hwf Hai] & Hlive & _) Hover.
  destruct (Hlive Hover) as [_ Hw].
  pose proof (over_after_move p i g Hover) as Ho.
  pose proof (winnerOpt_after_move p i g) as Hwo.
  split; [split|split].
  - rewrite board_after_move. apply wf_insert. exact Hwf.
  - rewrite (proj2 (frame_after_move p i g)). exact Hai.
  - intros H. rewrite board_after_move. rewrite Ho in H.
    rewrite Hwo, H. auto.
  - intros w H. rewrite Ho. rewrite Hwo in H. revert H.
    destruct (terminal (<[i := p]> (board g))); [reflexivity|congruence].
Qed.

Lemma inv_restart (g g' : Game.t) :
  inv g -> restart g = Ok (tt, g') -> inv g'.
Proof.
  intros ([Hwf Hai] & _) H. rewrite restart_run in H.
  injection H as <-. unfold Board.wf in Hwf. rewrite Hwf.
  split; [split; [reflexivity|exact Hai]|]. split.
  - intros _. split; reflexivity.
  - intros w Hw. discriminate.
Qed.

Lemma inv_playMove (g g' : Game.t) (r c : Z) (ok : bool) :
  inv g -> in_range r c -> playMove r c g = Ok (ok, g') -> inv g'.
Proof.
  intros Hinv Hr H. pose proof Hinv as ([Hwf _] & _).
  pose proof (in_range_addressable r c Hr) as Ha.
  destruct (over g) eqn:Hover.
  { rewrite playMove_over in H by exact Hover. congruence. }
  destruct (decide (board g !! slot r c = Some Empty)) as [He|Hne].
  - rewrite playMove_empty in H by assumption.
    destruct (checkGameState _); [|discriminate].
    injection H as _ <-. apply inv_after_move; assumption.
  - rewrite playMove_occupied in H by assumption. congruence.
Qed.

Lemma inv_aiMove (g g' : Game.t) (u : unit) :
  inv g -> aiMove g = Ok (u, g') -> inv g'.
Proof.
  intros Hinv H. pose proof Hinv as ([Hwf Hai] & _).
  destruct (over g) eqn:Hover.
  { rewrite aiMove_over in H by exact Hover. congruence. }
  destruct (findBestMove_choice (ai g) (board g)) as (best & Hfind & Hbest);
    [rewrite Hai; discriminate|rewrite Hai; discriminate|exact Hwf|].
  destruct Hbest as [[_ ->]|Hin].
  - rewrite (aiMove_no_move g _ Hover Hfind) in H. congruence.
  - rewrite (aiMove_move g best _ Hwf Hover Hfind Hin) in H.
    destruct (checkGameState _); [|discriminate].
    injection H as _ <-. apply inv_after_move; assumption.
Qed.

Lemma reachable_inv (g : Game.t) : reachable g -> inv g.
Proof.
  induction 1 as [|g g' _ IH Hstep]; [apply inv_init|].
  destruct Hstep as [g g' r c ok Hr Hplay|g g' Hai|g g' Hre].
  - exact (inv_playMove g g' r c ok IH Hr Hplay).
  - exact (inv_aiMove g g' tt IH Hai).
  - exact (inv_restart g g' IH Hre).
Qed.

Lemma terminal_false (cells : Board.t) :
  terminal cells = false <-> winner cells = None /\ full cells = false.
Proof.
  unfold terminal. destruct (winner cells); [|tauto].
  split; [discriminate|]. intros [H _]. discriminate.
Qed.



End GameFacts.

(** * The specification's claims *)

Import BoardSpec BoardFacts AISpec AIFacts GameSpec GameFacts.

(** ** Board *)

(** C7. On every board [checkWinner] leaves the board unchanged and returns
    the occupant of the first complete line in the fixed scan order of the
    eight lines (three rows, then three columns, then the two diagonals),
    and returns nothing exactly when no line is complete. *)
Theorem checkWinner_first_complete_line (cells : Board.t) :
  Board.wf cells ->
  lines = [(0, 1, 2); (3, 4, 5); (6, 7, 8);
           (0, 3, 6); (1, 4, 7); (2, 5, 8);
           (0, 4, 8); (2, 4, 6)]%nat /\
  exists w : option Cell,
    Board.checkWinner cells = Ok (w, cells) /\
    (w = None <->
     forall (l : nat * nat * nat) (p : Cell),
       In l lines -> ~ complete cells l p) /\
    (forall p : Cell,
       w = Some p <->
       exists (n : nat) (l : nat * nat * nat),
         lines !! n = Some l /\ complete cells l p /\
         forall (m : nat) (l' : nat * nat * nat) (q : Cell),
           (m < n)%nat -> lines !! m = Some l' -> ~ complete cells l' q).
Proof.
  intros Hwf. split; [reflexivity|].
  exists (winner cells). split; [apply checkWinner_run; exact Hwf|].
  split.
  - unfold winner. rewrite first_complete_None. split.
    + intros H l p Hl. apply H. apply list_elem_of_In. exact Hl.
    + intros H l p Hl. apply H. apply list_elem_of_In. exact Hl.
  - intros p. apply first_complete_Some.
Qed.

Lemma checkWinner_first_complete_line_witness :
  Board.wf [X; X; X; O; O; O; Empty; Empty; Empty] /\
  exists w : option Cell,
    Board.checkWinner [X; X; X; O; O; O; Empty; Empty; Empty]
    = Ok (w, [X; X; X; O; O; O; Empty; Empty; Empty]).
Proof.
  split; [reflexivity|].
  destruct (checkWinner_first_complete_line
              [X; X; X; O; O; O; Empty; Empty; Empty] eq_refl)
    as (_ & w & Hrun & _ & _).
  exists w. exact Hrun.
Defined.

(** C9. On every board, for every in-range Empty cell, [makeMove] followed
    by [undoMove] on that cell gives back exactly the board before the move;
    [undoMove] writes Empty whatever the cell holds. *)
Theorem makeMove_undoMove_restores (cells : Board.t) (r c : Z) (player : Cell) :
  Board.wf cells -> in_range r c ->
  Board.undoMove r c cells = Ok (tt, <[slot r c := Empty]> cells) /\
  (cells !! slot r c = Some Empty ->
   exists cells' : Board.t,
     Board.makeMove r c player cells = Ok (true, cells') /\
     Board.undoMove r c cells' = Ok (tt, cells)).
Proof.
  intros Hwf Hr. pose proof (in_range_addressable r c Hr) as Ha.
  assert (Hlt : (slot r c < 9)%nat)
    by (unfold slot; destruct Ha as [_ Ha]; unfold Board.SIZE in *; lia).
  split.
  - destruct (wf_lookup cells (slot r c) Hwf Hlt) as [v Hv].
    apply (undoMove_run r c v); assumption.
  - intros He. exists (<[slot r c := player]> cells). split.
    + apply makeMove_empty; assumption.
    + rewrite (undoMove_run r c player).
      * rewrite insert_undo by exact He. reflexivity.
      * exact Ha.
      * apply list_lookup_insert_eq. unfold Board.wf in Hwf. lia.
Qed.

Lemma makeMove_undoMove_restores_witness :
  Board.undoMove 1 1 [X; Empty; Empty; Empty; O; Empty; Empty; Empty; Empty]
  = Ok (tt, [X; Empty; Empty; Empty; Empty; Empty; Empty; Empty; Empty]) /\
  (Board.init !! slot 1 1 = Some Empty ->
   exists cells' : Board.t,
     Board.makeMove 1 1 X Board.init = Ok (true, cells') /\
     Board.undoMove 1 1 cells' = Ok (tt, Board.init)).
Proof.
  split.
  - apply (makeMove_undoMove_restores
             [X; Empty; Empty; Empty; O; Empty; Empty; Empty; Empty]
             1 1 X eq_refl).
    unfold in_range, Board.SIZE. lia.
  - apply (makeMove_undoMove_restores Board.init 1 1 X eq_refl).
    unfold in_range, Board.SIZE. lia.
Defined.

(** C4, as the specification states it, fails: with column 5 (outside
    [0,3)) the move is accepted and marks cell (1,2); with row 3 the array
    is indexed outside its extent, which is undefined behaviour and not a
    failed result. *)
Lemma makeMove_no_range_check :
  Board.wf Board.init /\ ~ in_range 0 5 /\ ~ in_range 3 0 /\
  Board.makeMove 0 5 X Board.init
  = Ok (true, [Empty; Empty; Empty; Empty; Empty; X; Empty; Empty; Empty]) /\
  Board.makeMove 3 0 X Board.init = Bad OutOfBounds.
Proof.
  split; [reflexivity|].
  split; [unfold in_range, Board.SIZE; lia|].
  split; [unfold in_range, Board.SIZE; lia|].
  split; reflexivity.
Qed.

(** C4, amended.  [makeMove(r, c, player)] addresses the array slot
    [r * SIZE + c] and performs no range check on [r] and [c].  Whenever
    that slot lies inside the array, the call succeeds if and only if the
    slot is Empty; it then marks exactly that slot and no other, and
    otherwise returns false with the board unchanged.  This covers every
    [r], [c] in [0,3).  When the slot lies outside the array the call has
    no defined result. *)
Theorem makeMove_spec (cells : Board.t) (r c : Z) (player : Cell) :
  Board.wf cells ->
  (in_range r c -> addressable r c) /\
  (addressable r c ->
   ((exists cells', Board.makeMove r c player cells = Ok (true, cells')) <->
    cells !! slot r c = Some Empty) /\
   (cells !! slot r c = Some Empty ->
    exists cells',
      Board.makeMove r c player cells = Ok (true, cells') /\
      cells' !! slot r c = Some player /\
      forall j : nat, j <> slot r c -> cells' !! j = cells !! j) /\
   (cells !! slot r c <> Some Empty ->
    Board.makeMove r c player cells = Ok (false, cells))) /\
  (~ addressable r c ->
   exists f : Fault, Board.makeMove r c player cells = Bad f).
Proof.
  intros Hwf. split; [apply in_range_addressable|]. split.
  - intros Ha.
    assert (Hlt : (slot r c < 9)%nat)
      by (unfold slot; destruct Ha as [_ Ha']; unfold Board.SIZE in *; lia).
    destruct (wf_lookup cells (slot r c) Hwf Hlt) as [v Hv].
    assert (Hyes : cells !! slot r c = Some Empty ->
              exists cells',
                Board.makeMove r c player cells = Ok (true, cells') /\
                cells' !! slot r c = Some player /\
                forall j : nat, j <> slot r c -> cells' !! j = cells !! j).
    { intros He. exists (<[slot r c := player]> cells). split.
      - apply makeMove_empty; assumption.
      - split.
        + apply list_lookup_insert_eq. unfold Board.wf in Hwf. lia.
        + intros j Hj. apply list_lookup_insert_ne. congruence. }
    assert (Hno : cells !! slot r c <> Some Empty ->
              Board.makeMove r c player cells = Ok (false, cells)).
    { intros Hne. apply (makeMove_occupied r c player v); [exact Ha|exact Hv|].
      congruence. }
    split; [|split; assumption].
    split.
    + intros [cells' Hrun].
      destruct (decide (cells !! slot r c = Some Empty)) as [He|Hne];
        [exact He|].
      rewrite (Hno Hne) in Hrun. discriminate.
    + intros He. destruct (Hyes He) as (cells' & Hrun & _).
      exists cells'. exact Hrun.
  - intros Hna. unfold Board.makeMove, Board.index.
    destruct (decide (INT_MIN <= r * Board.SIZE <= INT_MAX)) as [H1|H1].
    2: { exists SignedOverflow. apply bind_bad. apply bind_bad.
         apply int_bad. exact H1. }
    destruct (decide (INT_MIN <= r * Board.SIZE + c <= INT_MAX)) as [H2|H2].
    2: { exists SignedOverflow. apply bind_bad.
         rewrite (bind_ok _ _ _ _ _ (int_ok _ cells H1)).
         apply int_bad. exact H2. }
    exists OutOfBounds.
    erewrite bind_ok.
    2: { rewrite (bind_ok _ _ _ _ _ (int_ok _ cells H1)).
         apply int_ok. exact H2. }
    apply bind_bad. apply at_bad; [exact Hwf|].
    intros H3. apply Hna. split; assumption.
Qed.

Lemma makeMove_spec_witness :
  (exists cells', Board.makeMove 2 2 O Board.init = Ok (true, cells')) <->
  Board.init !! slot 2 2 = Some Empty.
Proof.
  destruct (makeMove_spec Board.init 2 2 O eq_refl) as (_ & H & _).
  apply H. unfold addressable, Board.SIZE, INT_MIN, INT_MAX. lia.
Defined.

(** ** AI *)

Lemma winner_complete (cells : Board.t) (p : Cell) :
  winner cells = Some p -> exists l, In l lines /\ complete cells l p.
Proof.
  intros H. apply first_complete_Some in H.
  destruct H as (n & l & Hn & Hc & _). exists l. split; [|exact Hc].
  apply list_elem_of_In. eapply list_elem_of_lookup_2. exact Hn.
Qed.

Lemma only_line_winner (cells : Board.t) (p q : Cell) :
  p <> Empty -> q <> Empty -> p <> q ->
  (exists l, In l lines /\ complete cells l p) ->
  (forall l, In l lines -> ~ complete cells l q) ->
  winner cells = Some p.
Proof.
  intros Hp Hq Hpq (l & Hl & Hc) Hnone.
  destruct (winner cells) as [w|] eqn:Hw.
  - destruct (winner_complete cells w Hw) as (l' & Hl' & Hc').
    assert (w <> Empty) by (destruct Hc'; assumption).
    assert (w <> q) by (intros ->; apply (Hnone l' Hl' Hc')).
    f_equal. destruct w, p, q; congruence.
  - unfold winner in Hw. rewrite first_complete_None in Hw.
    destruct (Hw l p); [apply list_elem_of_In; exact Hl|exact Hc].
Qed.

Lemma scoreForWinner_ai (self : AI.t) :
  AI.scoreForWinner self (AI.ai self) = 10.
Proof. unfold AI.scoreForWinner. rewrite Cell_eqb_refl. reflexivity. Qed.

Lemma scoreForWinner_human (self : AI.t) :
  AI.ai self <> AI.human self ->
  AI.scoreForWinner self (AI.human self) = -10.
Proof.
  intros H. unfold AI.scoreForWinner.
  replace (Cell_eqb (AI.human self) (AI.ai self)) with false
    by (symmetry; apply Cell_eqb_neq; congruence).
  rewrite Cell_eqb_refl. reflexivity.
Qed.

(** On a finished position the search returns at once, at any depth. *)
Lemma minimax_terminal (self : AI.t) (n : nat) (cells : Board.t) (depth : Z)
    (isMaximizing : bool) :
  Board.wf cells -> winner cells <> None \/ full cells = true ->
  AI.minimax self (S n) depth isMaximizing cells
  = Ok (value self (S n) cells isMaximizing, cells).
Proof.
  intros Hwf Hterm. cbn [AI.minimax value].
  rewrite (bind_ok _ _ _ _ _ (checkWinner_run cells Hwf)).
  destruct (winner cells); [reflexivity|].
  rewrite (bind_ok _ _ _ _ _ (isFull_run cells)).
  destruct Hterm as [H|H]; [congruence|]. rewrite H. reflexivity.
Qed.

Lemma Forall2_map_self {A B} (P : A -> B -> Prop) (f : A -> B) (l : list A) :
  (forall x, In x l -> P x (f x)) -> Forall2 P l (map f l).
Proof.
  induction l as [|x l IH]; intros H; simpl; constructor.
  - apply H. left. reflexivity.
  - apply IH. intros y Hy. apply H. right. exact Hy.
Qed.

(** C1.  On every board [minimax] leaves the board as it found it and
    returns +10 when the board has a complete line of the AI's mark, -10
    when it has a complete line of the human's mark, and 0 when no line is
    complete and the board is full.  (The winner is the one [checkWinner]
    reports; on a board with complete lines of one player only, which is
    every board with a line that play produces, that is the player who has
    them.)  The score is the same at every depth.  On an unfinished position
    a maximizing ply returns the maximum, and a minimizing ply the minimum,
    of the scores of the recursive calls over all available moves, each move
    being applied and then undone. *)
Theorem minimax_spec (self : AI.t) (cells : Board.t) (fuel : nat) (depth : Z)
    (isMaximizing : bool) :
  AI.ai self <> Empty -> AI.human self <> Empty ->
  AI.ai self <> AI.human self ->
  Board.wf cells -> (9 < fuel)%nat -> INT_MIN <= depth <= INT_MAX - 9 ->
  exists z : Z,
    AI.minimax self fuel depth isMaximizing cells = Ok (z, cells) /\
    (winner cells = Some (AI.ai self) -> z = 10) /\
    (winner cells = Some (AI.human self) -> z = -10) /\
    ((exists l, In l lines /\ complete cells l (AI.ai self)) ->
     (forall l, In l lines -> ~ complete cells l (AI.human self)) ->
     z = 10) /\
    ((exists l, In l lines /\ complete cells l (AI.human self)) ->
     (forall l, In l lines -> ~ complete cells l (AI.ai self)) ->
     z = -10) /\
    (winner cells = None -> full cells = true -> z = 0) /\
    (forall (fuel' : nat) (depth' : Z),
       (9 < fuel')%nat ->
       INT_MIN <= depth' <= INT_MAX - 9 \/
       winner cells <> None \/ full cells = true ->
       AI.minimax self fuel' depth' isMaximizing cells = Ok (z, cells)) /\
    (winner cells = None -> full cells = false ->
     let mark := if isMaximizing then AI.ai self else AI.human self in
     exists scores : list Z,
       Forall2 (fun m s =>
                  AI.minimax self fuel (depth + 1) (negb isMaximizing)
                             (place cells m mark)
                  = Ok (s, place cells m mark))
               (empties cells) scores /\
       if isMaximizing then maximum_of z scores else minimum_of z scores).
Proof.
  intros Hai Hhuman Hdiff Hwf Hfuel Hdepth.
  pose proof (wf_count cells Hwf) as Hcount.
  exists (value self fuel cells isMaximizing).
  destruct fuel as [|n]; [lia|].
  assert (Hw_ai : winner cells = Some (AI.ai self) ->
            value self (S n) cells isMaximizing = 10).
  { intros Hw. cbn [value]. rewrite Hw. apply scoreForWinner_ai. }
  assert (Hw_human : winner cells = Some (AI.human self) ->
            value self (S n) cells isMaximizing = -10).
  { intros Hw. cbn [value]. rewrite Hw. apply scoreForWinner_human.
    exact Hdiff. }
  split; [apply (minimax_run self Hai Hhuman); [assumption|lia..]|].
  split; [exact Hw_ai|]. split; [exact Hw_human|].
  split.
  { intros Hsome Hnone. apply Hw_ai.
    apply (only_line_winner cells _ (AI.human self)); assumption. }
  split.
  { intros Hsome Hnone. apply Hw_human.
    apply (only_line_winner cells _ (AI.ai self)); auto. }
  split.
  { intros Hw Hfull. cbn [value]. rewrite Hw, Hfull. reflexivity. }
  split.
  { intros fuel' depth' Hfuel' Hcase.
    rewrite (value_fuel self Hai Hhuman (S n) fuel') by lia.
    destruct Hcase as [Hd|Hterm].
    - apply (minimax_run self Hai Hhuman); [assumption|lia..].
    - destruct fuel' as [|n']; [lia|].
      apply minimax_terminal; assumption. }
  intros Hw Hfull mark.
  pose proof (not_full_empties cells Hwf Hfull) as Hne.
  assert (Hchild : forall (m : Z * Z) (p : Cell) (b : bool),
            In m (empties cells) -> p <> Empty ->
            AI.minimax self (S n) (depth + 1) b (place cells m p)
            = Ok (value self n (place cells m p) b, place cells m p)).
  { intros m p b Hm Hp. pose proof (place_count cells m p Hm Hp) as Hc.
    rewrite (value_fuel self Hai Hhuman n (S n)) by lia.
    apply (minimax_run self Hai Hhuman); [apply place_wf; exact Hwf|lia..]. }
  destruct isMaximizing; subst mark; cbn [negb].
  - exists (map (fun m => value self n (place cells m (AI.ai self)) false)
                (empties cells)).
    split.
    + apply Forall2_map_self. intros m Hm. apply Hchild; assumption.
    + cbn [value]. rewrite Hw, Hfull. apply fold_max_maximum.
      * destruct (empties cells); [congruence|discriminate].
      * intros x Hx. apply in_map_iff in Hx. destruct Hx as (m & <- & _).
        pose proof (value_bounds self n (place cells m (AI.ai self)) false
                      (place_wf _ _ _ Hwf)).
        unfold INT_MIN. lia.
  - exists (map (fun m => value self n (place cells m (AI.human self)) true)
                (empties cells)).
    split.
    + apply Forall2_map_self. intros m Hm. apply Hchild; assumption.
    + cbn [value]. rewrite Hw, Hfull. apply fold_min_minimum.
      * destruct (empties cells); [congruence|discriminate].
      * intros x Hx. apply in_map_iff in Hx. destruct Hx as (m & <- & _).
        pose proof (value_bounds self n (place cells m (AI.human self)) true
                      (place_wf _ _ _ Hwf)).
        unfold INT_MAX. lia.
Qed.

Lemma minimax_spec_witness :
  exists z : Z,
    AI.minimax (AI.Make O X) AI.FUEL 0 true
               [X; O; X; X; O; O; Empty; Empty; Empty]
    = Ok (z, [X; O; X; X; O; O; Empty; Empty; Empty]).
Proof.
  destruct (minimax_spec (AI.Make O X)
              [X; O; X; X; O; O; Empty; Empty; Empty] AI.FUEL 0 true)
    as (z & Hrun & _).
  - discriminate.
  - discriminate.
  - discriminate.
  - reflexivity.
  - change AI.FUEL with 10%nat. lia.
  - unfold INT_MIN, INT_MAX. lia.
  - exists z. exact Hrun.
Defined.

(** C2. On every board [findBestMove] goes through the Empty cells in
    row-major order, scores each one by [minimax] on the board with the
    AI's mark applied and the opponent (the minimizer) to play, and returns
    the first cell in that order whose score is the largest: every earlier
    cell scores strictly less, no later cell scores more.  The result is a
    function of the board.  With no Empty cell it returns (-1,-1). *)
Theorem findBestMove_first_maximum (self : AI.t) (cells : Board.t) :
  AI.ai self <> Empty -> AI.human self <> Empty -> Board.wf cells ->
  exists (score : Z * Z -> Z) (best : Z * Z),
    Board.availableMoves cells = Ok (empties cells, cells) /\
    empties cells
    = List.filter (is_empty_at cells)
        [(0, 0); (0, 1); (0, 2); (1, 0); (1, 1); (1, 2);
         (2, 0); (2, 1); (2, 2)] /\
    (forall m, In m (empties cells) ->
       AI.minimax self AI.FUEL 0 false (place cells m (AI.ai self))
       = Ok (score m, place cells m (AI.ai self))) /\
    AI.findBestMove self cells = Ok (best, cells) /\
    by_value (AI.findBestMove self) cells = Ok best /\
    ((forall i : nat, cells !! i <> Some Empty) -> best = (-1, -1)) /\
    (empties cells <> [] ->
     exists pre post : list (Z * Z),
       empties cells = pre ++ best :: post /\
       (forall m, In m pre -> score m < score best) /\
       (forall m, In m post -> score m <= score best)).
Proof.
  intros Hai Hhuman Hwf.
  exists (move_score self cells).
  exists (snd (pick (move_score self cells) (empties cells)
                    (INT_MIN, (-1, -1)))).
  pose proof (findBestMove_run self Hai Hhuman cells Hwf) as Hrun.
  split; [apply availableMoves_run; exact Hwf|].
  split; [reflexivity|].
  split.
  { intros m Hm. apply (minimax_top self Hai Hhuman).
    - apply place_wf. exact Hwf.
    - unfold INT_MIN, INT_MAX. lia. }
  split; [exact Hrun|].
  split; [unfold by_value; rewrite Hrun; reflexivity|].
  split.
  { intros Hnone.
    assert (He : empties cells = []).
    { destruct (empties cells) as [|m ms] eqn:E; [reflexivity|].
      assert (Hin : In m (empties cells)) by (rewrite E; left; reflexivity).
      apply empties_spec in Hin. destruct Hin as [_ Hin].
      destruct (Hnone _ Hin). }
    rewrite He. reflexivity. }
  intros Hne.
  destruct (pick_first_max (move_score self cells) (empties cells)
              INT_MIN (-1, -1)) as [[_ Hall]|Hex].
  - exfalso. destruct (empties cells) as [|m ms]; [congruence|].
    specialize (Hall m ltac:(left; reflexivity)).
    pose proof (value_bounds self AI.FUEL (place cells m (AI.ai self)) false
                  (place_wf _ _ _ Hwf)) as Hb.
    unfold move_score, INT_MIN in *. lia.
  - destruct Hex as (best & pre & post & Hpick & Hsplit & _ & Hpre & Hpost).
    rewrite Hpick. cbn [snd]. exists pre, post. auto.
Qed.

Lemma findBestMove_first_maximum_witness :
  exists best : Z * Z,
    by_value (AI.findBestMove (AI.Make O X))
             [X; O; X; X; O; O; Empty; Empty; Empty]
    = Ok best.
Proof.
  destruct (findBestMove_first_maximum (AI.Make O X)
              [X; O; X; X; O; O; Empty; Empty; Empty])
    as (score & best & _ & _ & _ & _ & Hrun & _).
  - discriminate.
  - discriminate.
  - reflexivity.
  - exists best. exact Hrun.
Defined.

(** C3. On the board [X,X,Empty, O,O,Empty, Empty,Empty,Empty], with X the
    maximizing player, [findBestMove] returns (0,2). *)
Theorem findBestMove_completes_top_row :
  by_value (AI.findBestMove (AI.Make X O))
           [X; X; Empty; O; O; Empty; Empty; Empty; Empty]
  = Ok (0, 2).
Proof. vm_compute. reflexivity. Qed.

(** ** Game *)

(** C5, as the specification states it, fails: [playMove] has no range
    check.  On a fresh game the out-of-range column 5 is accepted, X is
    marked on cell (1,2) and the turn passes to O; the out-of-range row 3
    indexes the array outside its extent, which is undefined behaviour and
    not a failure result. *)
Lemma playMove_no_range_check :
  ~ in_range 0 5 /\ ~ in_range 3 0 /\
  Game.playMove 0 5 Game.init
  = Ok (true,
        Game.Make [Empty; Empty; Empty; Empty; Empty; X; Empty; Empty; Empty]
                  O Game.HumanVsAI (AI.Make O X) false None 0 0) /\
  Game.playMove 3 0 Game.init = Bad OutOfBounds.
Proof.
  split; [unfold in_range, Board.SIZE; lia|].
  split; [unfold in_range, Board.SIZE; lia|].
  split; reflexivity.
Qed.

(** C5, amended.  [playMove(r, c)] returns failure and leaves the whole
    session unchanged when the game is already over (whatever [r] and [c]
    are) or when the addressed slot [r * SIZE + c] of the array is occupied.
    There is no range check: when the game is not over and that slot lies
    outside the array the call has no defined result.  Otherwise, the
    counters not being at [INT_MAX], it puts the current player's mark on
    that slot, evaluates the terminal condition (a winner or a full board),
    and flips the turn if and only if the session is still in progress.
    Every [r], [c] in [0,3) addresses the slot of cell (r, c). *)
Theorem playMove_spec (g : Game.t) (r c : Z) :
  Board.wf (Game.board g) ->
  (in_range r c -> addressable r c) /\
  (Game.over g = true -> Game.playMove r c g = Ok (false, g)) /\
  (Game.over g = false -> addressable r c ->
   Game.board g !! slot r c <> Some Empty ->
   Game.playMove r c g = Ok (false, g)) /\
  (Game.over g = false -> ~ addressable r c ->
   exists f : Fault, Game.playMove r c g = Bad f) /\
  (Game.over g = false -> addressable r c ->
   Game.board g !! slot r c = Some Empty -> headroom g ->
   exists g' : Game.t,
     Game.playMove r c g = Ok (true, g') /\
     Game.board g' = <[slot r c := Game.current g]> (Game.board g) /\
     Game.over g' = terminal (Game.board g') /\
     Game.winnerOpt g'
     = (if Game.over g' then winner (Game.board g') else Game.winnerOpt g) /\
     (Game.current g' = other (Game.current g) <-> Game.over g' = false) /\
     (Game.current g' = Game.current g <-> Game.over g' = true) /\
     Game.mode g' = Game.mode g).
Proof.
  intros Hwf.
  split; [apply in_range_addressable|].
  split; [apply playMove_over|].
  split; [apply playMove_occupied; exact Hwf|].
  split; [apply playMove_unaddressable; exact Hwf|].
  intros Hover Ha He Hroom.
  exists (after_move (Game.current g) (slot r c) g).
  pose proof (over_after_move (Game.current g) (slot r c) g Hover) as Ho.
  pose proof (current_after_move (Game.current g) (slot r c) g) as Hc.
  pose proof (other_neq (Game.current g)) as Hother.
  split.
  { rewrite playMove_empty by assumption.
    rewrite checkGameState_headroom; [reflexivity| |exact Hroom].
    apply wf_insert. exact Hwf. }
  rewrite board_after_move.
  split; [reflexivity|].
  split; [exact Ho|].
  split; [rewrite Ho; apply winnerOpt_after_move|].
  split; [|split].
  - rewrite Hc. destruct (Game.over (after_move _ _ g)).
    + split; [congruence|discriminate].
    + split; reflexivity.
  - rewrite Hc. destruct (Game.over (after_move _ _ g)).
    + split; reflexivity.
    + split; [congruence|discriminate].
  - apply frame_after_move.
Qed.

Lemma playMove_spec_witness :
  Board.wf (Game.board Game.init) /\
  exists g' : Game.t,
    Game.playMove 1 1 Game.init = Ok (true, g') /\
    Game.board g' = <[slot 1 1 := X]> Board.init /\
    Game.over g' = false.
Proof.
  split; [reflexivity|].
  destruct (playMove_spec Game.init 1 1) as (_ & _ & _ & _ & Hplay).
  - reflexivity.
  - destruct Hplay as (g' & Hrun & Hboard & Hover & _).
    + reflexivity.
    + unfold addressable, Board.SIZE, INT_MIN, INT_MAX. lia.
    + reflexivity.
    + unfold headroom, INT_MIN, INT_MAX. simpl. lia.
    + exists g'. split; [exact Hrun|]. split; [exact Hboard|].
      rewrite Hover, Hboard. reflexivity.
Defined.

(** C6, as the specification states it, fails: [aiMove] does not look at
    whose turn it is, and it marks O whoever the current player is.  In the
    position X X O / O O . / X . . , reached by six calls of [playMove], it
    is X's turn and the game is in progress; [aiMove] marks O on cell (1,2)
    and ends the game with a win for O. *)
Lemma aiMove_acts_on_the_human_turn :
  let g := Game.Make [X; X; O; O; O; Empty; X; Empty; Empty]
                     X Game.HumanVsAI (AI.Make O X) false None 0 0 in
  (do_ Game.playMove 0 0; do_ Game.playMove 1 1; do_ Game.playMove 0 1;
   do_ Game.playMove 0 2; do_ Game.playMove 2 0; Game.playMove 1 0) Game.init
  = Ok (true, g) /\
  Game.current g = X /\ Game.over g = false /\
  Game.aiMove g
  = Ok (tt, Game.Make [X; X; O; O; O; O; X; Empty; Empty]
                      X Game.HumanVsAI (AI.Make O X) true (Some O) 0 1) /\
  Game.aiMove g <> Ok (tt, g).
Proof.
  cbv zeta. split; [vm_compute; reflexivity|].
  split; [reflexivity|]. split; [reflexivity|].
  split; [vm_compute; reflexivity|].
  intros H. vm_compute in H. discriminate.
Qed.

(** C6, amended.  [aiMove] does nothing when the session is over and
    nothing when the search reports no move, (-1,-1).  Otherwise, whoever
    the current player is and whatever the mode, it marks O on the cell
    returned by [findBestMove], performs the terminal check and flips the
    turn if the session is still in progress; when the current player is O
    this is exactly what [playMove] does on that cell. *)
Theorem aiMove_spec (g : Game.t) :
  valid g ->
  (Game.over g = true -> Game.aiMove g = Ok (tt, g)) /\
  (Game.over g = false ->
   exists best : Z * Z,
     by_value (AI.findBestMove (Game.ai g)) (Game.board g) = Ok best /\
     (best = (-1, -1) -> Game.aiMove g = Ok (tt, g)) /\
     (best <> (-1, -1) -> headroom g ->
      exists g' : Game.t,
        Game.aiMove g = Ok (tt, g') /\
        in_range (fst best) (snd best) /\
        Game.board g !! slot (fst best) (snd best) = Some Empty /\
        Game.board g'
        = <[slot (fst best) (snd best) := O]> (Game.board g) /\
        Game.over g' = terminal (Game.board g') /\
        Game.current g'
        = (if Game.over g' then Game.current g else other (Game.current g)) /\
        (Game.current g = O ->
         Game.playMove (fst best) (snd best) g = Ok (true, g')))).
Proof.
  intros [Hwf Hai]. split; [apply aiMove_over|]. intros Hover.
  destruct (findBestMove_choice (Game.ai g) (Game.board g))
    as (best & Hfind & Hbest);
    [rewrite Hai; discriminate|rewrite Hai; discriminate|exact Hwf|].
  exists best.
  split; [unfold by_value; rewrite Hfind; reflexivity|].
  split.
  { intros ->. apply (aiMove_no_move g _ Hover Hfind). }
  intros Hne Hroom.
  destruct Hbest as [[_ Hnone]|Hin]; [congruence|].
  pose proof Hin as Hin'. apply empties_spec in Hin'.
  destruct Hin' as [Hr He].
  pose proof (in_range_addressable _ _ Hr) as Ha.
  exists (after_move O (slot (fst best) (snd best)) g).
  split.
  { rewrite (aiMove_move g best _ Hwf Hover Hfind Hin).
    rewrite checkGameState_headroom; [reflexivity| |exact Hroom].
    apply wf_insert. exact Hwf. }
  split; [exact Hr|]. split; [exact He|].
  rewrite board_after_move. split; [reflexivity|].
  split; [apply over_after_move; exact Hover|].
  split; [apply current_after_move|].
  intros Hturn. rewrite playMove_empty by assumption. rewrite Hturn.
  rewrite checkGameState_headroom; [reflexivity| |exact Hroom].
  apply wf_insert. exact Hwf.
Qed.

Lemma aiMove_spec_witness :
  valid (Game.Make [X; X; O; O; O; Empty; X; Empty; Empty]
                   O Game.HumanVsAI (AI.Make O X) false None 0 0) /\
  exists best : Z * Z,
    by_value (AI.findBestMove (AI.Make O X))
             [X; X; O; O; O; Empty; X; Empty; Empty]
    = Ok best.
Proof.
  split; [split; reflexivity|].
  destruct (aiMove_spec
              (Game.Make [X; X; O; O; O; Empty; X; Empty; Empty]
                         O Game.HumanVsAI (AI.Make O X) false None 0 0))
    as [_ Hlive].
  - split; reflexivity.
  - destruct (Hlive eq_refl) as (best & Hfind & _).
    exists best. exact Hfind.
Defined.

(** C8, as the specification states it, fails: [setMode] only stores the
    mode.  After X has played (0,0), [setMode] leaves X's mark on the board
    and O to move; nothing is restarted. *)
Lemma setMode_does_not_restart :
  let g := Game.Make [X; Empty; Empty; Empty; Empty; Empty; Empty; Empty; Empty]
                     O Game.HumanVsAI (AI.Make O X) false None 0 0 in
  Game.playMove 0 0 Game.init = Ok (true, g) /\
  Game.setMode Game.HumanVsHuman g
  = Ok (tt, Game.Make [X; Empty; Empty; Empty; Empty; Empty; Empty; Empty;
                       Empty]
                      O Game.HumanVsHuman (AI.Make O X) false None 0 0) /\
  (forall g', Game.setMode Game.HumanVsHuman g = Ok (tt, g') ->
              Game.board g' <> Board.init /\ Game.current g' <> X).
Proof.
  cbv zeta. split; [reflexivity|]. split; [reflexivity|].
  intros g' H. injection H as <-. split; discriminate.
Qed.

(** C8, amended.  [restart] sets every cell to Empty, clears the terminal
    flag and the winner, gives the turn to X and leaves both counters and
    the mode as they were.  [setMode] stores the mode and changes nothing
    else.  The restart on a mode switch is done by its caller,
    [GUI::toggleMode], which sets the other mode and then calls [restart];
    the counters are again left as they were. *)
Theorem restart_spec (g : Game.t) (m : Game.Mode) :
  (exists g' : Game.t,
     Game.restart g = Ok (tt, g') /\
     length (Game.board g') = length (Game.board g) /\
     (forall (i : nat) (v : Cell), Game.board g' !! i = Some v -> v = Empty) /\
     Game.over g' = false /\ Game.winnerOpt g' = None /\
     Game.current g' = X /\
     Game.scoreX g' = Game.scoreX g /\ Game.scoreO g' = Game.scoreO g /\
     Game.mode g' = Game.mode g) /\
  (exists g' : Game.t,
     Game.setMode m g = Ok (tt, g') /\
     Game.mode g' = m /\
     Game.board g' = Game.board g /\ Game.current g' = Game.current g /\
     Game.over g' = Game.over g /\ Game.winnerOpt g' = Game.winnerOpt g /\
     Game.scoreX g' = Game.scoreX g /\ Game.scoreO g' = Game.scoreO g) /\
  (exists g1 g2 : Game.t,
     GUI.toggleMode g = Ok (tt, g2) /\
     Game.setMode (match Game.mode g with
                   | Game.HumanVsHuman => Game.HumanVsAI
                   | Game.HumanVsAI => Game.HumanVsHuman
                   end) g = Ok (tt, g1) /\
     Game.restart g1 = Ok (tt, g2) /\
     Game.mode g2 <> Game.mode g /\
     Game.scoreX g2 = Game.scoreX g /\ Game.scoreO g2 = Game.scoreO g).
Proof.
  split; [|split].
  - eexists. split; [apply restart_run|]. cbn.
    split; [apply length_replicate|]. split; [|tauto].
    intros i v H. apply lookup_replicate in H. tauto.
  - eexists. split; [apply setMode_run|]. cbn. tauto.
  - eexists. eexists. split; [apply toggleMode_run|].
    split; [apply setMode_run|]. split; [apply restart_run|]. cbn.
    split; [destruct (Game.mode g); discriminate|tauto].
Qed.

(** C10. In every state reachable from the initial one by [playMove] with
    in-range arguments, [aiMove] and [restart]: if the terminal flag is
    false then no line of the board is complete, the board is not full and
    the stored winner is empty; and whenever the stored winner holds a
    value the terminal flag is true. *)
Theorem reachable_flag_consistent (g : Game.t) :
  reachable g ->
  (Game.over g = false ->
   (forall (l : nat * nat * nat) (p : Cell),
      In l lines -> ~ complete (Game.board g) l p) /\
   Board.checkWinner (Game.board g) = Ok (None, Game.board g) /\
   Board.isFull (Game.board g) = Ok (false, Game.board g) /\
   (exists i : nat, Game.board g !! i = Some Empty) /\
   Game.winnerOpt g = None) /\
  (forall w : Cell, Game.winnerOpt g = Some w -> Game.over g = true).
Proof.
  intros Hreach. apply reachable_inv in Hreach.
  destruct Hreach as ([Hwf _] & Hlive & Hwin).
  split; [|exact Hwin]. intros Hover.
  destruct (Hlive Hover) as [Hterm Hnone].
  apply terminal_false in Hterm. destruct Hterm as [Hw Hfull].
  split.
  { intros l p Hl. unfold winner in Hw. rewrite first_complete_None in Hw.
    apply Hw. apply list_elem_of_In. exact Hl. }
  split; [rewrite checkWinner_run by exact Hwf; rewrite Hw; reflexivity|].
  split; [rewrite isFull_run, Hfull; reflexivity|].
  split; [|exact Hnone].
  pose proof (not_full_empties _ Hwf Hfull) as Hne.
  destruct (empties (Game.board g)) as [|m ms] eqn:E; [congruence|].
  assert (Hin : In m (empties (Game.board g)))
    by (rewrite E; left; reflexivity).
  apply empties_spec in Hin. destruct Hin as [_ Hin].
  eexists. exact Hin.
Qed.

Lemma reachable_flag_consistent_witness :
  reachable (Game.Make [X; X; O; Empty; O; Empty; Empty; Empty; Empty]
                       X Game.HumanVsAI (AI.Make O X) false None 0 0) /\
  Board.checkWinner [X; X; O; Empty; O; Empty; Empty; Empty; Empty]
  = Ok (None, [X; X; O; Empty; O; Empty; Empty; Empty; Empty]) /\
  Board.isFull [X; X; O; Empty; O; Empty; Empty; Empty; Empty]
  = Ok (false, [X; X; O; Empty; O; Empty; Empty; Empty; Empty]).
Proof.
  assert (Hreach :
            reachable
              (Game.Make [X; X; O; Empty; O; Empty; Empty; Empty; Empty]
                         X Game.HumanVsAI (AI.Make O X) false None 0 0)).
  { apply (reach_step
             (Game.Make [X; X; Empty; Empty; O; Empty; Empty; Empty; Empty]
                        O Game.HumanVsAI (AI.Make O X) false None 0 0)).
    - apply (reach_step
               (Game.Make [X; Empty; Empty; Empty; O; Empty; Empty; Empty;
                           Empty]
                          X Game.HumanVsAI (AI.Make O X) false None 0 0)).
      + apply (reach_step
                 (Game.Make [X; Empty; Empty; Empty; Empty; Empty; Empty;
                             Empty; Empty]
                            O Game.HumanVsAI (AI.Make O X) false None 0 0)).
        * apply (reach_step Game.init); [apply reach_init|].
          apply (step_playMove _ _ 0 0 true);
            [unfold in_range, Board.SIZE; lia|vm_compute; reflexivity].
        * apply (step_playMove _ _ 1 1 true);
            [unfold in_range, Board.SIZE; lia|vm_compute; reflexivity].
      + apply (step_playMove _ _ 0 1 true);
          [unfold in_range, Board.SIZE; lia|vm_compute; reflexivity].
    - apply step_aiMove. vm_compute. reflexivity. }
  split; [exact Hreach|].
  destruct (reachable_flag_consistent _ Hreach) as [Hlive _].
  destruct (Hlive eq_refl) as (_ & Hwin & Hfull & _).
  split; [exact Hwin|exact Hfull].
Defined.

(** * Further properties of the code *)

Import PlaySpec.

(** ** Board: moves, cells and their agreement *)

Lemma slot_inj (r c r' c' : Z) :
  in_range r c -> in_range r' c' -> slot r c = slot r' c' ->
  r = r' /\ c = c'.
Proof. unfold in_range, slot, Board.SIZE. lia. Qed.

Lemma slot_lt (r c : Z) : in_range r c -> (slot r c < 9)%nat.
Proof. unfold in_range, slot, Board.SIZE. lia. Qed.

Lemma NoDup_coords : List.NoDup coords.
Proof.
  rewrite coords_eq.
  repeat (apply List.NoDup_cons; [simpl; intros H; intuition congruence|]).
  apply List.NoDup_nil.
Qed.

Lemma length_empties (cells : Board.t) :
  Board.wf cells -> length (empties cells) = count_empty cells.
Proof.
  intros Hwf. unfold Board.wf in Hwf.
  destruct cells as [|c0 [|c1 [|c2 [|c3 [|c4 [|c5 [|c6 [|c7 [|c8 [|]]]]]]]]]];
    try discriminate.
  unfold empties, count_empty. rewrite coords_eq. cbn [List.filter].
  change (is_empty_at _ (0, 0)) with (Cell_eqb c0 Empty).
  change (is_empty_at _ (0, 1)) with (Cell_eqb c1 Empty).
  change (is_empty_at _ (0, 2)) with (Cell_eqb c2 Empty).
  change (is_empty_at _ (1, 0)) with (Cell_eqb c3 Empty).
  change (is_empty_at _ (1, 1)) with (Cell_eqb c4 Empty).
  change (is_empty_at _ (1, 2)) with (Cell_eqb c5 Empty).
  change (is_empty_at _ (2, 0)) with (Cell_eqb c6 Empty).
  change (is_empty_at _ (2, 1)) with (Cell_eqb c7 Empty).
  change (is_empty_at _ (2, 2)) with (Cell_eqb c8 Empty).
  destruct (Cell_eqb c0 Empty), (Cell_eqb c1 Empty), (Cell_eqb c2 Empty),
    (Cell_eqb c3 Empty), (Cell_eqb c4 Empty), (Cell_eqb c5 Empty),
    (Cell_eqb c6 Empty), (Cell_eqb c7 Empty), (Cell_eqb c8 Empty);
    reflexivity.
Qed.

(** X1. [availableMoves] and [isFull] agree, and neither changes the
    board: on every board the list holds each in-range Empty cell exactly
    once and nothing else, [isFull] returns true when no cell of the array
    is Empty and false otherwise, and the list is empty exactly when
    [isFull] returns true. *)
Theorem availableMoves_agrees_with_isFull (cells : Board.t) :
  Board.wf cells ->
  exists (moves : list (Z * Z)) (isfull : bool),
    Board.availableMoves cells = Ok (moves, cells) /\
    Board.isFull cells = Ok (isfull, cells) /\
    List.NoDup moves /\
    (forall r c : Z,
       In (r, c) moves <-> in_range r c /\ cells !! slot r c = Some Empty) /\
    length moves = count_empty cells /\
    (isfull = true <-> forall i : nat, cells !! i <> Some Empty) /\
    (isfull = true <-> moves = []) /\
    (isfull = false <-> moves <> []).
Proof.
  intros Hwf. exists (empties cells), (full cells).
  assert (Hiff : full cells = true <-> empties cells = []).
  { split.
    - apply full_empties.
    - intros H. destruct (full cells) eqn:E; [reflexivity|].
      destruct (not_full_empties cells Hwf E H). }
  split; [apply availableMoves_run; exact Hwf|].
  split; [apply isFull_run|].
  split; [apply List.NoDup_filter; apply NoDup_coords|].
  split; [intros r c; apply (empties_spec cells (r, c))|].
  split; [apply length_empties; exact Hwf|].
  split; [|split; [exact Hiff|]].
  - split.
    + intros H i. apply full_no_empty. exact H.
    + intros H. apply Hiff.
      destruct (empties cells) as [|m ms] eqn:E; [reflexivity|].
      assert (Hin : In m (empties cells)) by (rewrite E; left; reflexivity).
      apply empties_spec in Hin. destruct Hin as [_ Hin].
      destruct (H _ Hin).
  - rewrite <- Hiff. destruct (full cells); split; congruence.
Qed.

Lemma availableMoves_agrees_with_isFull_witness :
  exists (moves : list (Z * Z)) (isfull : bool),
    Board.availableMoves [X; O; X; X; O; O; O; X; Empty]
    = Ok (moves, [X; O; X; X; O; O; O; X; Empty]) /\
    Board.isFull [X; O; X; X; O; O; O; X; Empty]
    = Ok (isfull, [X; O; X; X; O; O; O; X; Empty]) /\
    length moves = 1%nat.
Proof.
  destruct (availableMoves_agrees_with_isFull
              [X; O; X; X; O; O; O; X; Empty] eq_refl)
    as (moves & isfull & Hrun & Hfull & _ & _ & Hlen & _).
  exists moves, isfull.
  split; [exact Hrun|]. split; [exact Hfull|exact Hlen].
Defined.

(** X2. A successful [makeMove] is read back by [get]: the marked cell
    holds the player's mark, and every other in-range cell reads as it did
    before the move. *)
Theorem makeMove_then_get (cells : Board.t) (r c r' c' : Z) (player : Cell) :
  Board.wf cells -> in_range r c -> in_range r' c' ->
  cells !! slot r c = Some Empty ->
  exists cells' : Board.t,
    Board.makeMove r c player cells = Ok (true, cells') /\
    Board.get r c cells' = Ok (player, cells') /\
    ((r', c') <> (r, c) ->
     exists v : Cell,
       Board.get r' c' cells = Ok (v, cells) /\
       Board.get r' c' cells' = Ok (v, cells')).
Proof.
  intros Hwf Hr Hr' He.
  pose proof (in_range_addressable _ _ Hr) as Ha.
  pose proof (in_range_addressable _ _ Hr') as Ha'.
  exists (<[slot r c := player]> cells).
  split; [apply makeMove_empty; assumption|].
  split.
  - apply get_run; [exact Ha|]. apply list_lookup_insert_eq.
    pose proof (slot_lt r c Hr). unfold Board.wf in Hwf. lia.
  - intros Hne.
    destruct (wf_lookup cells (slot r' c') Hwf (slot_lt _ _ Hr')) as [v Hv].
    exists v. split; [apply get_run; assumption|].
    apply get_run; [exact Ha'|].
    rewrite list_lookup_insert_ne; [exact Hv|].
    intros Heq. apply Hne.
    destruct (slot_inj r c r' c' Hr Hr' Heq) as [-> ->]. reflexivity.
Qed.

Lemma makeMove_then_get_witness :
  exists cells' : Board.t,
    Board.makeMove 1 1 O [X; Empty; Empty; Empty; Empty; Empty; Empty; Empty;
                          Empty]
    = Ok (true, cells') /\
    Board.get 1 1 cells' = Ok (O, cells').
Proof.
  destruct (makeMove_then_get
              [X; Empty; Empty; Empty; Empty; Empty; Empty; Empty; Empty]
              1 1 0 0 O eq_refl)
    as (cells' & Hmove & Hget & _).
  - unfold in_range, Board.SIZE. lia.
  - unfold in_range, Board.SIZE. lia.
  - reflexivity.
  - exists cells'. split; [exact Hmove|exact Hget].
Defined.

(** ** AI: the scores of the search *)

Lemma value_set (self : AI.t) (n : nat) (cells : Board.t) (b : bool) :
  Board.wf cells ->
  value self n cells b = -10 \/ value self n cells b = 0 \/
  value self n cells b = 10.
Proof.
  revert cells b. induction n as [|n IH]; intros cells b Hwf; simpl; [auto|].
  destruct (winner cells) as [w|].
  { unfold AI.scoreForWinner.
    destruct (Cell_eqb w (AI.ai self)); [auto|].
    destruct (Cell_eqb w (AI.human self)); auto. }
  destruct (full cells) eqn:Hfull; [auto|].
  pose proof (not_full_empties cells Hwf Hfull) as Hne.
  destruct b.
  - destruct (fold_max_maximum
                (map (fun m => value self n (place cells m (AI.ai self)) false)
                     (empties cells))) as [Hin _].
    + destruct (empties cells); [congruence|discriminate].
    + intros x Hx. apply in_map_iff in Hx. destruct Hx as (m & <- & _).
      pose proof (value_bounds self n (place cells m (AI.ai self)) false
                    (place_wf _ _ _ Hwf)).
      unfold INT_MIN. lia.
    + apply in_map_iff in Hin. destruct Hin as (m & <- & _).
      apply IH. apply place_wf. exact Hwf.
  - destruct (fold_min_minimum
                (map (fun m => value self n (place cells m (AI.human self)) true)
                     (empties cells))) as [Hin _].
    + destruct (empties cells); [congruence|discriminate].
    + intros x Hx. apply in_map_iff in Hx. destruct Hx as (m & <- & _).
      pose proof (value_bounds self n (place cells m (AI.human self)) true
                    (place_wf _ _ _ Hwf)).
      unfold INT_MAX. lia.
    + apply in_map_iff in Hin. destruct Hin as (m & <- & _).
      apply IH. apply place_wf. exact Hwf.
Qed.

(** X3. Whatever the board, the depth and the ply, [minimax] returns one of
    the three scores -10, 0 and 10, and gives the board back as it was. *)
Theorem minimax_three_scores (self : AI.t) (cells : Board.t) (fuel : nat)
    (depth : Z) (isMaximizing : bool) :
  AI.ai self <> Empty -> AI.human self <> Empty ->
  Board.wf cells -> (9 < fuel)%nat -> INT_MIN <= depth <= INT_MAX - 9 ->
  exists z : Z,
    AI.minimax self fuel depth isMaximizing cells = Ok (z, cells) /\
    (z = -10 \/ z = 0 \/ z = 10).
Proof.
  intros Hai Hhuman Hwf Hfuel Hdepth.
  pose proof (wf_count cells Hwf) as Hcount.
  exists (value self fuel cells isMaximizing). split.
  - apply (minimax_run self Hai Hhuman); [exact Hwf|lia..].
  - apply value_set. exact Hwf.
Qed.

Lemma minimax_three_scores_witness :
  exists z : Z,
    AI.minimax (AI.Make O X) AI.FUEL 0 false
               [X; Empty; Empty; Empty; O; Empty; Empty; Empty; X]
    = Ok (z, [X; Empty; Empty; Empty; O; Empty; Empty; Empty; X]) /\
    (z = -10 \/ z = 0 \/ z = 10).
Proof.
  apply (minimax_three_scores (AI.Make O X)
           [X; Empty; Empty; Empty; O; Empty; Empty; Empty; X] AI.FUEL 0 false).
  - discriminate.
  - discriminate.
  - reflexivity.
  - change AI.FUEL with 10%nat. lia.
  - unfold INT_MIN, INT_MAX. lia.
Defined.

Lemma fold_min_opp (l : list Z) (acc : Z) :
  fold_left Z.min (map Z.opp l) (- acc) = - fold_left Z.max l acc.
Proof.
  revert acc. induction l as [|x l IH]; intros acc; simpl; [reflexivity|].
  rewrite <- Z.opp_max_distr. apply IH.
Qed.

Lemma fold_max_opp (l : list Z) (acc : Z) :
  fold_left Z.max (map Z.opp l) (- acc) = - fold_left Z.min l acc.
Proof.
  revert acc. induction l as [|x l IH]; intros acc; simpl; [reflexivity|].
  rewrite <- Z.opp_min_distr. apply IH.
Qed.

Lemma fold_min_start (l : list Z) (a a' : Z) :
  l <> [] -> (forall x, In x l -> x <= a /\ x <= a') ->
  fold_left Z.min l a = fold_left Z.min l a'.
Proof.
  intros Hne Hle. destruct l as [|x l]; [congruence|]. simpl.
  destruct (Hle x ltac:(left; reflexivity)) as [H1 H2].
  rewrite !Z.min_r by lia. reflexivity.
Qed.

Lemma fold_max_start (l : list Z) (a a' : Z) :
  l <> [] -> (forall x, In x l -> a <= x /\ a' <= x) ->
  fold_left Z.max l a = fold_left Z.max l a'.
Proof.
  intros Hne Hle. destruct l as [|x l]; [congruence|]. simpl.
  destruct (Hle x ltac:(left; reflexivity)) as [H1 H2].
  rewrite !Z.max_r by lia. reflexivity.
Qed.

Lemma scoreForWinner_swap (a h w : Cell) :
  a <> h ->
  AI.scoreForWinner (AI.Make h a) w = - AI.scoreForWinner (AI.Make a h) w.
Proof.
  intros Hne. unfold AI.scoreForWinner. simpl.
  destruct (Cell_eqb w a) eqn:Ea, (Cell_eqb w h) eqn:Eh; try reflexivity.
  apply Cell_eqb_eq in Ea, Eh. congruence.
Qed.

Lemma value_swap (a h : Cell) (n : nat) (cells : Board.t) (b : bool) :
  a <> h -> Board.wf cells ->
  value (AI.Make h a) n cells (negb b) = - value (AI.Make a h) n cells b.
Proof.
  intros Hne. revert cells b.
  induction n as [|n IH]; intros cells b Hwf; simpl; [reflexivity|].
  destruct (winner cells) as [w|]; [apply scoreForWinner_swap; exact Hne|].
  destruct (full cells) eqn:Hfull; [reflexivity|].
  pose proof (not_full_empties cells Hwf Hfull) as Hempt.
  assert (Hmap : forall f : Z * Z -> Z, map f (empties cells) <> []).
  { intros f. destruct (empties cells); [congruence|discriminate]. }
  destruct b; simpl.
  - rewrite <- fold_min_opp, map_map.
    rewrite (map_ext_in _ (fun m => - value (AI.Make a h) n (place cells m a) false)).
    2: { intros m _. apply (IH _ false). apply place_wf. exact Hwf. }
    apply fold_min_start; [apply Hmap|].
    intros x Hx. apply in_map_iff in Hx. destruct Hx as (m & <- & _).
    pose proof (value_bounds (AI.Make a h) n (place cells m a) false
                  (place_wf _ _ _ Hwf)).
    unfold INT_MAX, INT_MIN. lia.
  - rewrite <- fold_max_opp, map_map.
    rewrite (map_ext_in _ (fun m => - value (AI.Make a h) n (place cells m h) true)).
    2: { intros m _. apply (IH _ true). apply place_wf. exact Hwf. }
    apply fold_max_start; [apply Hmap|].
    intros x Hx. apply in_map_iff in Hx. destruct Hx as (m & <- & _).
    pose proof (value_bounds (AI.Make a h) n (place cells m h) true
                  (place_wf _ _ _ Hwf)).
    unfold INT_MAX, INT_MIN. lia.
Qed.

(** X4. The search is zero-sum: exchanging the two marks of the AI and the
    kind of ply negates the score [minimax] returns on any board. *)
Theorem minimax_role_swap (a h : Cell) (cells : Board.t) (fuel : nat)
    (depth : Z) (isMaximizing : bool) :
  a <> Empty -> h <> Empty -> a <> h ->
  Board.wf cells -> (9 < fuel)%nat -> INT_MIN <= depth <= INT_MAX - 9 ->
  exists z : Z,
    AI.minimax (AI.Make a h) fuel depth isMaximizing cells = Ok (z, cells) /\
    AI.minimax (AI.Make h a) fuel depth (negb isMaximizing) cells
    = Ok (- z, cells).
Proof.
  intros Ha Hh Hne Hwf Hfuel Hdepth.
  pose proof (wf_count cells Hwf) as Hcount.
  exists (value (AI.Make a h) fuel cells isMaximizing). split.
  - apply (minimax_run (AI.Make a h) Ha Hh); [exact Hwf|lia..].
  - rewrite <- value_swap by assumption.
    apply (minimax_run (AI.Make h a) Hh Ha); [exact Hwf|lia..].
Qed.

Lemma minimax_role_swap_witness :
  exists z : Z,
    AI.minimax (AI.Make O X) AI.FUEL 0 true
               [X; X; Empty; O; O; Empty; Empty; Empty; Empty]
    = Ok (z, [X; X; Empty; O; O; Empty; Empty; Empty; Empty]) /\
    AI.minimax (AI.Make X O) AI.FUEL 0 false
               [X; X; Empty; O; O; Empty; Empty; Empty; Empty]
    = Ok (- z, [X; X; Empty; O; O; Empty; Empty; Empty; Empty]).
Proof.
  apply (minimax_role_swap O X
           [X; X; Empty; O; O; Empty; Empty; Empty; Empty] AI.FUEL 0 true).
  - discriminate.
  - discriminate.
  - discriminate.
  - reflexivity.
  - change AI.FUEL with 10%nat. lia.
  - unfold INT_MIN, INT_MAX. lia.
Defined.

(** X5. [findBestMove] never lets a win go: when some available move
    completes a line of the AI's mark at once, the move it returns is an
    Empty in-range cell whose score is +10. *)
Theorem findBestMove_keeps_a_win (self : AI.t) (cells : Board.t) (m : Z * Z) :
  AI.ai self <> Empty -> AI.human self <> Empty -> Board.wf cells ->
  In m (empties cells) ->
  winner (place cells m (AI.ai self)) = Some (AI.ai self) ->
  exists best : Z * Z,
    AI.findBestMove self cells = Ok (best, cells) /\
    in_range (fst best) (snd best) /\
    cells !! slot (fst best) (snd best) = Some Empty /\
    AI.minimax self AI.FUEL 0 false (place cells best (AI.ai self))
    = Ok (10, place cells best (AI.ai self)).
Proof.
  intros Hai Hhuman Hwf Hm Hwin.
  rewrite (findBestMove_run self Hai Hhuman cells Hwf).
  assert (Hten : move_score self cells m = 10).
  { unfold move_score. change AI.FUEL with (S 9). cbn [value].
    rewrite Hwin. apply scoreForWinner_ai. }
  assert (Hle : forall m', move_score self cells m' <= 10).
  { intros m'. unfold move_score.
    pose proof (value_bounds self AI.FUEL (place cells m' (AI.ai self)) false
                  (place_wf _ _ _ Hwf)). lia. }
  destruct (pick_first_max (move_score self cells) (empties cells)
              INT_MIN (-1, -1)) as [[_ Hall]|Hex].
  { specialize (Hall m Hm). unfold INT_MIN in Hall. lia. }
  destruct Hex as (best & pre & post & Hpick & Hsplit & _ & Hpre & Hpost).
  rewrite Hpick. cbn [snd]. exists best. split; [reflexivity|].
  assert (Hbest : In best (empties cells)).
  { rewrite Hsplit. apply in_or_app. right. left. reflexivity. }
  pose proof Hbest as Hspec. apply empties_spec in Hspec.
  destruct Hspec as [Hr He]. split; [exact Hr|]. split; [exact He|].
  assert (Hscore : move_score self cells best = 10).
  { pose proof (Hle best). rewrite Hsplit in Hm.
    apply in_app_or in Hm. destruct Hm as [Hm|[Hm|Hm]].
    - specialize (Hpre m Hm). lia.
    - subst m. exact Hten.
    - specialize (Hpost m Hm). lia. }
  rewrite <- Hscore. apply (minimax_top self Hai Hhuman).
  - apply place_wf. exact Hwf.
  - unfold INT_MIN, INT_MAX. lia.
Qed.

Lemma findBestMove_keeps_a_win_witness :
  exists best : Z * Z,
    AI.findBestMove (AI.Make O X)
                    [X; X; Empty; O; O; Empty; X; Empty; Empty]
    = Ok (best, [X; X; Empty; O; O; Empty; X; Empty; Empty]) /\
    in_range (fst best) (snd best).
Proof.
  destruct (findBestMove_keeps_a_win (AI.Make O X)
              [X; X; Empty; O; O; Empty; X; Empty; Empty] (1, 2))
    as (best & Hrun & Hr & _).
  - discriminate.
  - discriminate.
  - reflexivity.
  - vm_compute. tauto.
  - reflexivity.
  - exists best. split; [exact Hrun|exact Hr].
Defined.

(** ** Game: what a move does to the session *)

Lemma winner_not_Empty (cells : Board.t) (p : Cell) :
  winner cells = Some p -> p <> Empty.
Proof.
  intros H. destruct (winner_complete cells p H) as (l & _ & Hc).
  destruct Hc as [Hp _]. exact Hp.
Qed.

Lemma winner_None_no_line (cells : Board.t) (l : nat * nat * nat) (p : Cell) :
  winner cells = None -> In l lines -> ~ complete cells l p.
Proof.
  unfold winner. rewrite first_complete_None. intros H Hl.
  apply H. apply list_elem_of_In. exact Hl.
Qed.

Lemma scores_settle (g : Game.t) :
  Game.scoreX (settle g) = Game.scoreX g + gain X (winner (Game.board g)) /\
  Game.scoreO (settle g) = Game.scoreO g + gain O (winner (Game.board g)).
Proof.
  unfold settle, gain.
  destruct (winner (Game.board g)) as [p|] eqn:Hw.
  - pose proof (winner_not_Empty _ _ Hw).
    destruct p; try congruence; simpl; split; lia.
  - destruct (full (Game.board g)); simpl; split; lia.
Qed.

Lemma scores_after_move (p : Cell) (i : nat) (g : Game.t) :
  Game.scoreX (after_move p i g)
  = Game.scoreX g + gain X (winner (<[i := p]> (Game.board g))) /\
  Game.scoreO (after_move p i g)
  = Game.scoreO g + gain O (winner (<[i := p]> (Game.board g))).
Proof.
  unfold after_move. cbv zeta.
  destruct (Game.over (settle _));
    cbn [Game.scoreX Game.scoreO Game.set_current];
    apply (scores_settle (Game.set_board _ g)).
Qed.

(** The two ways a call of [playMove] can return. *)
Lemma playMove_cases (g g' : Game.t) (r c : Z) (ok : bool) :
  Board.wf (Game.board g) -> Game.playMove r c g = Ok (ok, g') ->
  (ok = false /\ g' = g) \/
  (ok = true /\ Game.over g = false /\ addressable r c /\
   Game.board g !! slot r c = Some Empty /\
   g' = after_move (Game.current g) (slot r c) g).
Proof.
  intros Hwf H.
  destruct (Game.over g) eqn:Hover.
  { rewrite playMove_over in H by exact Hover. left. split; congruence. }
  destruct (decide (addressable r c)) as [Ha|Hna].
  2: { destruct (playMove_unaddressable r c g Hwf Hover Hna) as [f Hf].
       congruence. }
  destruct (decide (Game.board g !! slot r c = Some Empty)) as [He|Hne].
  - rewrite playMove_empty in H by assumption.
    destruct (Game.checkGameState _); [|discriminate].
    right. injection H as <- <-. auto.
  - rewrite playMove_occupied in H by assumption.
    left. split; congruence.
Qed.

(** The two ways a call of [aiMove] can return. *)
Lemma aiMove_cases (g g' : Game.t) (u : unit) :
  valid g -> Game.aiMove g = Ok (u, g') ->
  g' = g \/
  (Game.over g = false /\
   exists best : Z * Z,
     by_value (AI.findBestMove (Game.ai g)) (Game.board g) = Ok best /\
     In best (empties (Game.board g)) /\
     g' = after_move O (slot (fst best) (snd best)) g).
Proof.
  intros [Hwf Hai] H.
  destruct (Game.over g) eqn:Hover.
  { rewrite aiMove_over in H by exact Hover. left. congruence. }
  destruct (findBestMove_choice (Game.ai g) (Game.board g))
    as (best & Hfind & Hbest);
    [rewrite Hai; discriminate|rewrite Hai; discriminate|exact Hwf|].
  destruct Hbest as [[_ ->]|Hin].
  - rewrite (aiMove_no_move g _ Hover Hfind) in H. left. congruence.
  - rewrite (aiMove_move g best _ Hwf Hover Hfind Hin) in H.
    destruct (Game.checkGameState _); [|discriminate].
    right. split; [reflexivity|]. exists best.
    split; [unfold by_value; rewrite Hfind; reflexivity|].
    split; [exact Hin|]. congruence.
Qed.

(** X6. [playMove] and the score counters: a call that returns false
    leaves the whole session as it was; a call that returns true has marked
    an Empty cell of a session in progress with the current player's mark,
    and has added one to the counter of the player whose line is then
    complete, and nothing to the other counter (nothing to either on a draw
    or when the game goes on). *)
Theorem playMove_score_tally (g g' : Game.t) (r c : Z) (ok : bool) :
  Board.wf (Game.board g) -> Game.playMove r c g = Ok (ok, g') ->
  (ok = false -> g' = g) /\
  (ok = true ->
   Game.over g = false /\
   Game.board g !! slot r c = Some Empty /\
   Game.board g' = <[slot r c := Game.current g]> (Game.board g) /\
   Game.scoreX g' = Game.scoreX g + gain X (winner (Game.board g')) /\
   Game.scoreO g' = Game.scoreO g + gain O (winner (Game.board g'))).
Proof.
  intros Hwf H.
  destruct (playMove_cases g g' r c ok Hwf H)
    as [[-> ->]|(-> & Hover & _ & He & ->)].
  - split; [reflexivity|discriminate].
  - split; [discriminate|]. intros _.
    rewrite board_after_move.
    split; [exact Hover|]. split; [exact He|]. split; [reflexivity|].
    apply scores_after_move.
Qed.

Lemma playMove_score_tally_witness :
  Game.scoreX
    (Game.Make [X; X; X; O; O; Empty; Empty; Empty; Empty]
               X Game.HumanVsHuman (AI.Make O X) true (Some X) 1 0)
  = 0 + gain X (winner [X; X; X; O; O; Empty; Empty; Empty; Empty]).
Proof.
  destruct (playMove_score_tally
              (Game.Make [X; X; Empty; O; O; Empty; Empty; Empty; Empty]
                         X Game.HumanVsHuman (AI.Make O X) false None 0 0)
              (Game.Make [X; X; X; O; O; Empty; Empty; Empty; Empty]
                         X Game.HumanVsHuman (AI.Make O X) true (Some X) 1 0)
              0 2 true) as [_ Hyes].
  - reflexivity.
  - vm_compute. reflexivity.
  - destruct (Hyes eq_refl) as (_ & _ & _ & HX & _). exact HX.
Defined.

Lemma first_mark_not_terminal (i : nat) (p : Cell) :
  (i < 9)%nat -> terminal (<[i := p]> Board.init) = false.
Proof.
  intros Hi.
  do 9 (destruct i as [|i]; [destruct p; reflexivity|]). lia.
Qed.

(** X7. After [restart] every in-range cell can be played: on any session,
    [restart] followed by [playMove(r, c)] returns true, leaves X's mark on
    that cell alone, gives the turn to O with the game in progress, and
    keeps the counters and the mode. *)
Theorem restart_then_playMove (g : Game.t) (r c : Z) :
  Board.wf (Game.board g) -> in_range r c ->
  exists g' : Game.t,
    (do_ Game.restart; Game.playMove r c) g = Ok (true, g') /\
    Game.board g' = <[slot r c := X]> Board.init /\
    Game.current g' = O /\ Game.over g' = false /\
    Game.winnerOpt g' = None /\
    Game.scoreX g' = Game.scoreX g /\ Game.scoreO g' = Game.scoreO g /\
    Game.mode g' = Game.mode g.
Proof.
  intros Hwf Hr. unfold Board.wf in Hwf.
  pose proof (first_mark_not_terminal (slot r c) X (slot_lt r c Hr)) as Hterm.
  rewrite (bind_ok _ _ _ _ _ (restart_run g)), Hwf.
  set (g0 := Game.Make (replicate 9 Empty) X (Game.mode g) (Game.ai g)
                       false None (Game.scoreX g) (Game.scoreO g)).
  assert (Hrun : Game.playMove r c g0
                 = Ok (true, after_move X (slot r c) g0)).
  { rewrite playMove_empty.
    - rewrite checkGameState_run by (apply wf_insert; reflexivity).
      cbn [Game.board Game.set_board Game.current g0].
      change (replicate 9 Empty) with Board.init.
      apply terminal_false in Hterm. destruct Hterm as [-> _]. reflexivity.
    - reflexivity.
    - reflexivity.
    - apply in_range_addressable. exact Hr.
    - apply lookup_replicate_2. apply slot_lt. exact Hr. }
  exists (after_move X (slot r c) g0). split; [exact Hrun|].
  pose proof (over_after_move X (slot r c) g0 eq_refl) as Hover.
  pose proof (current_after_move X (slot r c) g0) as Hcur.
  pose proof (winnerOpt_after_move X (slot r c) g0) as Hwo.
  pose proof (scores_after_move X (slot r c) g0) as [HX HO].
  cbn [Game.board Game.current Game.winnerOpt Game.scoreX Game.scoreO g0]
    in Hover, Hcur, Hwo, HX, HO.
  change (replicate 9 Empty) with Board.init in Hover, Hwo, HX, HO.
  rewrite Hterm in Hover, Hwo. rewrite Hover in Hcur.
  apply terminal_false in Hterm. destruct Hterm as [Hw _].
  rewrite Hw in HX, HO. cbn [gain] in HX, HO.
  rewrite board_after_move.
  split; [reflexivity|]. split; [exact Hcur|]. split; [exact Hover|].
  split; [exact Hwo|]. split; [lia|]. split; [lia|].
  apply (frame_after_move X (slot r c) g0).
Qed.

Lemma restart_then_playMove_witness :
  exists g' : Game.t,
    (do_ Game.restart; Game.playMove 2 1)
      (Game.Make [X; X; X; O; O; Empty; Empty; Empty; Empty]
                 X Game.HumanVsHuman (AI.Make O X) true (Some X) 1 0)
    = Ok (true, g') /\
    Game.board g' = <[slot 2 1 := X]> Board.init.
Proof.
  destruct (restart_then_playMove
              (Game.Make [X; X; X; O; O; Empty; Empty; Empty; Empty]
                         X Game.HumanVsHuman (AI.Make O X) true (Some X) 1 0)
              2 1) as (g' & Hrun & Hboard & _).
  - reflexivity.
  - unfold in_range, Board.SIZE. lia.
  - exists g'. split; [exact Hrun|exact Hboard].
Defined.

(** ** Game: the board and the flags of a reachable session *)

Lemma complete_insert_other (cells : Board.t) (i : nat) (p q : Cell)
    (l : nat * nat * nat) :
  complete (<[i := p]> cells) l q -> q <> p -> complete cells l q.
Proof.
  intros (Hq & H1 & H2 & H3) Hne.
  assert (Hback : forall j : nat,
            <[i := p]> cells !! j = Some q -> cells !! j = Some q).
  { intros j Hj. apply list_lookup_insert_Some in Hj.
    destruct Hj as [(_ & Heq & _)|[_ Hj]]; [congruence|exact Hj]. }
  split; [exact Hq|]. auto.
Qed.

Lemma one_sided_after (cells : Board.t) (i : nat) (p : Cell) :
  winner cells = None -> one_sided (<[i := p]> cells).
Proof.
  intros Hw l l' q q' Hl Hl' Hc Hc'.
  destruct (decide (q = p)) as [->|Hq].
  - destruct (decide (q' = p)) as [->|Hq']; [reflexivity|].
    destruct (winner_None_no_line cells l' q' Hw Hl').
    apply (complete_insert_other cells i p); assumption.
  - destruct (winner_None_no_line cells l q Hw Hl).
    apply (complete_insert_other cells i p); assumption.
Qed.

Lemma one_sided_no_line (cells : Board.t) :
  winner cells = None -> one_sided cells.
Proof.
  intros Hw l l' q q' Hl _ Hc _.
  destruct (winner_None_no_line cells l q Hw Hl Hc).
Qed.

(** The invariant of a finished round. *)
Lemma finished_after_move (p : Cell) (i : nat) (g : Game.t) :
  inv g -> Game.over g = false ->
  one_sided (Game.board (after_move p i g)) /\
  (Game.over (after_move p i g) = true ->
   terminal (Game.board (after_move p i g)) = true /\
   Game.winnerOpt (after_move p i g)
   = winner (Game.board (after_move p i g))).
Proof.
  intros (_ & Hlive & _) Hover.
  destruct (Hlive Hover) as [Hterm _]. apply terminal_false in Hterm.
  destruct Hterm as [Hw _].
  rewrite board_after_move, (over_after_move p i g Hover),
    winnerOpt_after_move.
  split; [apply one_sided_after; exact Hw|].
  intros H. rewrite H. auto.
Qed.

Lemma reachable_finished (g : Game.t) :
  reachable g ->
  one_sided (Game.board g) /\
  (Game.over g = true ->
   terminal (Game.board g) = true /\
   Game.winnerOpt g = winner (Game.board g)).
Proof.
  induction 1 as [|g g' Hreach IH Hstep].
  - split; [apply one_sided_no_line; reflexivity|discriminate].
  - pose proof (reachable_inv g Hreach) as Hinv.
    pose proof Hinv as ([Hwf Hai] & _).
    destruct Hstep as [g g' r c ok Hr Hplay|g g' Hmove|g g' Hre].
    + destruct (playMove_cases g g' r c ok Hwf Hplay)
        as [[_ ->]|(_ & Hover & _ & _ & ->)]; [exact IH|].
      apply finished_after_move; assumption.
    + destruct (aiMove_cases g g' tt (conj Hwf Hai) Hmove)
        as [->|(Hover & best & _ & _ & ->)]; [exact IH|].
      apply finished_after_move; assumption.
    + rewrite restart_run in Hre. injection Hre as <-.
      unfold Board.wf in Hwf. rewrite Hwf. cbn [Game.board Game.over].
      split; [apply one_sided_no_line; reflexivity|discriminate].
Qed.

(** X8. In every reachable session the terminal flag says exactly that the
    board is finished (a complete line or no Empty cell), a finished
    session stores the winner [checkWinner] reports on its board (none on a
    draw), and the complete lines of the board never belong to both
    players. *)
Theorem reachable_board_and_flags_agree (g : Game.t) :
  reachable g ->
  Game.over g = terminal (Game.board g) /\
  (Game.over g = true -> Game.winnerOpt g = winner (Game.board g)) /\
  Board.checkWinner (Game.board g)
  = Ok (winner (Game.board g), Game.board g) /\
  one_sided (Game.board g).
Proof.
  intros Hreach.
  pose proof (reachable_inv g Hreach) as ([Hwf _] & Hlive & _).
  destruct (reachable_finished g Hreach) as [Hone Hfin].
  split.
  { destruct (Game.over g).
    - destruct (Hfin eq_refl) as [-> _]. reflexivity.
    - destruct (Hlive eq_refl) as [-> _]. reflexivity. }
  split; [intros H; apply Hfin; exact H|].
  split; [apply checkWinner_run; exact Hwf|exact Hone].
Qed.

Lemma reachable_sample : 
  reachable (Game.Make [X; X; O; Empty; O; Empty; Empty; Empty; Empty]
                       X Game.HumanVsAI (AI.Make O X) false None 0 0).
Proof.
  apply (reach_step
           (Game.Make [X; X; Empty; Empty; O; Empty; Empty; Empty; Empty]
                      O Game.HumanVsAI (AI.Make O X) false None 0 0)).
  - apply (reach_step
             (Game.Make [X; Empty; Empty; Empty; O; Empty; Empty; Empty;
                         Empty]
                        X Game.HumanVsAI (AI.Make O X) false None 0 0)).
    + apply (reach_step
               (Game.Make [X; Empty; Empty; Empty; Empty; Empty; Empty;
                           Empty; Empty]
                          O Game.HumanVsAI (AI.Make O X) false None 0 0)).
      * apply (reach_step Game.init); [apply reach_init|].
        apply (step_playMove _ _ 0 0 true);
          [unfold in_range, Board.SIZE; lia|vm_compute; reflexivity].
      * apply (step_playMove _ _ 1 1 true);
          [unfold in_range, Board.SIZE; lia|vm_compute; reflexivity].
    + apply (step_playMove _ _ 0 1 true);
        [unfold in_range, Board.SIZE; lia|vm_compute; reflexivity].
  - apply step_aiMove. vm_compute. reflexivity.
Defined.

Lemma reachable_board_and_flags_agree_witness :
  false = terminal [X; X; O; Empty; O; Empty; Empty; Empty; Empty] /\
  one_sided [X; X; O; Empty; O; Empty; Empty; Empty; Empty].
Proof.
  destruct (reachable_board_and_flags_agree _ reachable_sample)
    as (Hover & _ & _ & Hone).
  split; [exact Hover|exact Hone].
Defined.

(** X9. On the board of every reachable session the original scoring rule
    holds without reference to the scan order: [minimax] of the session's
    AI returns +10 whenever O has a complete line and -10 whenever X has
    one. *)
Theorem minimax_on_reachable_board (g : Game.t) (fuel : nat) (depth : Z)
    (isMaximizing : bool) :
  reachable g -> (9 < fuel)%nat -> INT_MIN <= depth <= INT_MAX - 9 ->
  ((exists l, In l lines /\ complete (Game.board g) l O) ->
   AI.minimax (Game.ai g) fuel depth isMaximizing (Game.board g)
   = Ok (10, Game.board g)) /\
  ((exists l, In l lines /\ complete (Game.board g) l X) ->
   AI.minimax (Game.ai g) fuel depth isMaximizing (Game.board g)
   = Ok (-10, Game.board g)).
Proof.
  intros Hreach Hfuel Hdepth.
  pose proof (reachable_inv g Hreach) as ([Hwf Hai] & _).
  destruct (reachable_finished g Hreach) as [Hone _].
  pose proof (wf_count _ Hwf) as Hcount.
  rewrite Hai.
  assert (Hrun : AI.minimax (AI.Make O X) fuel depth isMaximizing
                            (Game.board g)
                 = Ok (value (AI.Make O X) fuel (Game.board g) isMaximizing,
                       Game.board g)).
  { apply minimax_run; [discriminate|discriminate|exact Hwf|lia..]. }
  rewrite Hrun. destruct fuel as [|n]; [lia|]. cbn [value].
  split; intros (l & Hl & Hc).
  - rewrite (only_line_winner (Game.board g) O X);
      [reflexivity|discriminate|discriminate|discriminate| |].
    + exists l. auto.
    + intros l' Hl' Hc'. pose proof (Hone l l' O X Hl Hl' Hc Hc').
      discriminate.
  - rewrite (only_line_winner (Game.board g) X O);
      [reflexivity|discriminate|discriminate|discriminate| |].
    + exists l. auto.
    + intros l' Hl' Hc'. pose proof (Hone l l' X O Hl Hl' Hc Hc').
      discriminate.
Qed.

Lemma reachable_won :
  reachable (Game.Make [X; X; O; O; O; O; X; Empty; Empty]
                       X Game.HumanVsAI (AI.Make O X) true (Some O) 0 1).
Proof.
  assert (R1 : reachable
                 (Game.Make [X; Empty; Empty; Empty; Empty; Empty; Empty;
                             Empty; Empty]
                            O Game.HumanVsAI (AI.Make O X) false None 0 0)).
  { apply (reach_step Game.init); [apply reach_init|].
    apply (step_playMove _ _ 0 0 true);
      [unfold in_range, Board.SIZE; lia|vm_compute; reflexivity]. }
  assert (R2 : reachable
                 (Game.Make [X; Empty; Empty; Empty; O; Empty; Empty; Empty;
                             Empty]
                            X Game.HumanVsAI (AI.Make O X) false None 0 0)).
  { apply (reach_step _ _ R1).
    apply (step_playMove _ _ 1 1 true);
      [unfold in_range, Board.SIZE; lia|vm_compute; reflexivity]. }
  assert (R3 : reachable
                 (Game.Make [X; X; Empty; Empty; O; Empty; Empty; Empty;
                             Empty]
                            O Game.HumanVsAI (AI.Make O X) false None 0 0)).
  { apply (reach_step _ _ R2).
    apply (step_playMove _ _ 0 1 true);
      [unfold in_range, Board.SIZE; lia|vm_compute; reflexivity]. }
  assert (R4 : reachable
                 (Game.Make [X; X; O; Empty; O; Empty; Empty; Empty; Empty]
                            X Game.HumanVsAI (AI.Make O X) false None 0 0)).
  { apply (reach_step _ _ R3).
    apply (step_playMove _ _ 0 2 true);
      [unfold in_range, Board.SIZE; lia|vm_compute; reflexivity]. }
  assert (R5 : reachable
                 (Game.Make [X; X; O; Empty; O; Empty; X; Empty; Empty]
                            O Game.HumanVsAI (AI.Make O X) false None 0 0)).
  { apply (reach_step _ _ R4).
    apply (step_playMove _ _ 2 0 true);
      [unfold in_range, Board.SIZE; lia|vm_compute; reflexivity]. }
  assert (R6 : reachable
                 (Game.Make [X; X; O; O; O; Empty; X; Empty; Empty]
                            X Game.HumanVsAI (AI.Make O X) false None 0 0)).
  { apply (reach_step _ _ R5).
    apply (step_playMove _ _ 1 0 true);
      [unfold in_range, Board.SIZE; lia|vm_compute; reflexivity]. }
  apply (reach_step _ _ R6).
  apply step_aiMove. vm_compute. reflexivity.
Defined.

Lemma minimax_on_reachable_board_witness :
  AI.minimax (AI.Make O X) AI.FUEL 0 true
             [X; X; O; O; O; O; X; Empty; Empty]
  = Ok (10, [X; X; O; O; O; O; X; Empty; Empty]).
Proof.
  destruct (minimax_on_reachable_board _ AI.FUEL 0 true reachable_won)
    as [HO _].
  - change AI.FUEL with 10%nat. lia.
  - unfold INT_MIN, INT_MAX. lia.
  - apply HO. exists (3, 4, 5)%nat. split.
    + unfold lines, rows. simpl. tauto.
    + unfold complete. simpl. repeat split; discriminate || reflexivity.
Defined.

(** ** GUI: the session under the event loop *)

Lemma bind_getter {A B} (f : Game.t -> A) (k : A -> M Game.t B) (g : Game.t) :
  bind (do s <- get; ret (f s)) k g = k (f g) g.
Proof. reflexivity. Qed.

(** An invariant of the session is kept by every event as soon as it is
    kept by the five ways [handleEvents] calls into the game. *)
Section EventInduction.

Variable P : Game.t -> Prop.

Hypothesis P_restart :
  forall g g', P g -> Game.restart g = Ok (tt, g') -> P g'.
Hypothesis P_toggle :
  forall g g', P g -> GUI.toggleMode g = Ok (tt, g') -> P g'.
Hypothesis P_human :
  forall g g' r c ok,
    P g -> Game.mode g = Game.HumanVsHuman ->
    Game.playMove r c g = Ok (ok, g') -> P g'.
Hypothesis P_alone :
  forall g g' r c ok,
    P g -> Game.mode g = Game.HumanVsAI -> Game.current g = X ->
    Game.playMove r c g = Ok (ok, g') ->
    ok = false \/ Game.over g' = true -> P g'.
Hypothesis P_reply :
  forall g g1 g' r c,
    P g -> Game.mode g = Game.HumanVsAI -> Game.current g = X ->
    Game.playMove r c g = Ok (true, g1) -> Game.over g1 = false ->
    Game.aiMove g1 = Ok (tt, g') -> P g'.

Lemma handleBottomClick_preserves (mx my : Z) (g g' : Game.t) :
  P g -> GUI.handleBottomClick mx my g = Ok (tt, g') -> P g'.
Proof.
  intros HP H. unfold GUI.handleBottomClick in H.
  destruct ((mx >=? 50) && (mx <=? 250) && (my >=? 610) && (my <=? 660)).
  - rewrite (bind_ok _ _ _ _ _ (restart_run g)) in H.
    assert (HP1 : P (Game.Make (replicate (length (Game.board g)) Empty) X
                               (Game.mode g) (Game.ai g) false None
                               (Game.scoreX g) (Game.scoreO g)))
      by (apply (P_restart g); [exact HP|apply restart_run]).
    destruct ((mx >=? 350) && (mx <=? 550) && (my >=? 610) && (my <=? 660)).
    + eapply P_toggle; [exact HP1|exact H].
    + injection H as <-. exact HP1.
  - rewrite bind_ret in H.
    destruct ((mx >=? 350) && (mx <=? 550) && (my >=? 610) && (my <=? 660)).
    + eapply P_toggle; [exact HP|exact H].
    + injection H as <-. exact HP.
Qed.

Lemma handleEvent_preserves (e : GUI.Event) (g g' : Game.t) :
  P g -> GUI.handleEvent e g = Ok (tt, g') -> P g'.
Proof.
  intros HP H.
  destruct e as [|[|] mx my|[| |]|]; cbn [GUI.handleEvent] in H;
    try (injection H as <-; exact HP).
  - destruct (my <=? 600);
      [|eapply handleBottomClick_preserves; [exact HP|exact H]].
    cbv zeta in H. unfold Game.getMode in H. rewrite bind_getter in H.
    destruct (Game.mode g) eqn:Hmode.
    + destruct (Game.playMove (my ÷ GUI.cellSize) (mx ÷ GUI.cellSize) g)
        as [[ok g1]|f] eqn:Hplay.
      * rewrite (bind_ok _ _ _ _ _ Hplay) in H. injection H as <-.
        eapply P_human; eassumption.
      * rewrite (bind_bad _ _ _ _ Hplay) in H. discriminate.
    + unfold Game.currentPlayer in H. rewrite bind_getter in H.
      destruct (Cell_eqb (Game.current g) X) eqn:Hcur;
        [|injection H as <-; exact HP].
      apply Cell_eqb_eq in Hcur.
      destruct (Game.playMove (my ÷ GUI.cellSize) (mx ÷ GUI.cellSize) g)
        as [[ok g1]|f] eqn:Hplay.
      2: { rewrite (bind_bad _ _ _ _ Hplay) in H. discriminate. }
      rewrite (bind_ok _ _ _ _ _ Hplay) in H.
      destruct ok.
      * unfold Game.isOver in H. rewrite bind_getter in H.
        destruct (Game.over g1) eqn:Hover; cbn [negb] in H.
        -- injection H as <-. eapply P_alone; eauto.
        -- eapply P_reply; eassumption.
      * injection H as <-. eapply P_alone; eauto.
  - eapply P_restart; eassumption.
  - eapply P_toggle; eassumption.
Qed.

Lemma gui_reachable_invariant (g : Game.t) :
  P Game.init -> gui_reachable g -> P g.
Proof.
  intros Hinit. induction 1 as [|g g' e _ IH Hstep]; [exact Hinit|].
  eapply handleEvent_preserves; eassumption.
Qed.

End EventInduction.

(** *** The invariant of the event loop *)

(** Exhaustive check: from the empty board, with the computer answering
    every move of X, X never completes a line. *)
Lemma safe_init : safe 5 Board.init = true.
Proof. vm_cast_no_check (eq_refl true). Qed.

Lemma count_mark_insert (cells : Board.t) (i : nat) (p q : Cell) :
  cells !! i = Some Empty -> p <> Empty ->
  count_mark p (<[i := q]> cells)
  = if Cell_eqb p q then S (count_mark p cells) else count_mark p cells.
Proof.
  unfold count_mark. revert i.
  induction cells as [|v cells IH]; intros i Hi Hp.
  - rewrite lookup_nil in Hi. discriminate.
  - destruct i as [|i]; simpl in *.
    + injection Hi as ->.
      replace (Cell_eqb p Empty) with false
        by (symmetry; apply Cell_eqb_neq; exact Hp).
      destruct (Cell_eqb p q); reflexivity.
    + specialize (IH i Hi Hp).
      destruct (Cell_eqb p v); simpl; rewrite IH;
        destruct (Cell_eqb p q); reflexivity.
Qed.

Lemma legal_after_move (i : nat) (g : Game.t) :
  legal g -> Game.over g = false ->
  Game.board g !! i = Some Empty ->
  legal (after_move (Game.current g) i g).
Proof.
  intros [_ Hturn] Hover He.
  pose proof (current_after_move (Game.current g) i g) as Hcur.
  unfold legal. rewrite board_after_move, Hcur.
  pose proof (count_mark_insert (Game.board g) i X (Game.current g) He)
    as HX.
  pose proof (count_mark_insert (Game.board g) i O (Game.current g) He)
    as HO.
  specialize (HX ltac:(discriminate)). specialize (HO ltac:(discriminate)).
  destruct (Hturn Hover) as [[Hc Heq]|[Hc Heq]]; rewrite Hc in *;
    cbn in HX, HO; rewrite HX, HO, Heq.
  - split; [right; reflexivity|].
    intros H. rewrite H. right. split; reflexivity.
  - split; [left; reflexivity|].
    intros H. rewrite H. left. split; reflexivity.
Qed.

Lemma fresh_gui_inv (m : Game.Mode) (sx so : Z) :
  gui_inv (Game.Make (replicate 9 Empty) X m (AI.Make O X) false None sx so).
Proof.
  split; [|split; [|split]].
  - split; [split; reflexivity|]. split.
    + intros _. split; reflexivity.
    + intros w H. discriminate.
  - split; [apply one_sided_no_line; reflexivity|discriminate].
  - split; [left; reflexivity|]. intros _. left. split; reflexivity.
  - intros _. split; [discriminate|]. intros _. split; [reflexivity|].
    exists 5%nat. exact safe_init.
Qed.

Lemma gui_inv_restart (g g' : Game.t) :
  gui_inv g -> Game.restart g = Ok (tt, g') -> gui_inv g'.
Proof.
  intros (([Hwf Hai] & _) & _) H. rewrite restart_run in H.
  injection H as <-. unfold Board.wf in Hwf. rewrite Hwf, Hai.
  apply fresh_gui_inv.
Qed.

Lemma gui_inv_toggle (g g' : Game.t) :
  gui_inv g -> GUI.toggleMode g = Ok (tt, g') -> gui_inv g'.
Proof.
  intros (([Hwf Hai] & _) & _) H. rewrite toggleMode_run in H.
  injection H as <-. unfold Board.wf in Hwf. rewrite Hwf, Hai.
  apply fresh_gui_inv.
Qed.

(** The part of the invariant that does not depend on the mode is kept by
    every move of the player whose turn it is. *)
Lemma core_after_move (i : nat) (g : Game.t) :
  inv g -> finished g -> legal g -> Game.over g = false ->
  Game.board g !! i = Some Empty ->
  inv (after_move (Game.current g) i g) /\
  finished (after_move (Game.current g) i g) /\
  legal (after_move (Game.current g) i g).
Proof.
  intros Hinv Hfin Hlegal Hover He.
  split; [apply inv_after_move; assumption|].
  split; [apply finished_after_move; assumption|].
  apply legal_after_move; assumption.
Qed.

Lemma gui_inv_human (g g' : Game.t) (r c : Z) (ok : bool) :
  gui_inv g -> Game.mode g = Game.HumanVsHuman ->
  Game.playMove r c g = Ok (ok, g') -> gui_inv g'.
Proof.
  intros (Hinv & Hfin & Hlegal & Hguard) Hmode Hplay.
  pose proof Hinv as ([Hwf _] & _).
  destruct (playMove_cases g g' r c ok Hwf Hplay)
    as [[_ ->]|(_ & Hover & _ & He & ->)].
  - split; [exact Hinv|]. split; [exact Hfin|]. split; assumption.
  - destruct (core_after_move (slot r c) g Hinv Hfin Hlegal Hover He)
      as (H1 & H2 & H3).
    split; [exact H1|]. split; [exact H2|]. split; [exact H3|].
    intros Hm. rewrite (proj1 (frame_after_move _ _ g)) in Hm. congruence.
Qed.

Lemma not_won_by_X_spec (cells : Board.t) :
  not_won_by_X cells = true -> winner cells <> Some X.
Proof.
  unfold not_won_by_X. destruct (winner cells) as [w|]; [|discriminate].
  intros H [= ->]. discriminate.
Qed.

(** What [safe] promises about one round of play on slot [i]. *)
Lemma safe_step (n : nat) (cells : Board.t) (i : nat) :
  safe n cells = true -> (i < 9)%nat -> cells !! i = Some Empty ->
  exists n' : nat,
    if terminal (<[i := X]> cells) then
      not_won_by_X (<[i := X]> cells) = true
    else
      exists best : Z * Z,
        by_value (AI.findBestMove (AI.Make O X)) (<[i := X]> cells)
        = Ok best /\
        if terminal (place (<[i := X]> cells) best O) then
          not_won_by_X (place (<[i := X]> cells) best O) = true
        else safe n' (place (<[i := X]> cells) best O) = true.
Proof.
  intros Hsafe Hi He. destruct n as [|n']; [discriminate|].
  exists n'. cbn [safe] in Hsafe. rewrite forallb_forall in Hsafe.
  specialize (Hsafe i). rewrite He in Hsafe. cbv zeta in Hsafe.
  specialize (Hsafe ltac:(apply in_seq; lia)).
  destruct (terminal (<[i := X]> cells)); [exact Hsafe|].
  destruct (by_value _ _) as [best|f]; [|discriminate].
  exists best. split; [reflexivity|].
  destruct (terminal (place (<[i := X]> cells) best O)); exact Hsafe.
Qed.

Lemma aiMove_in_progress (g g' : Game.t) (u : unit) :
  valid g -> Game.over g = false -> terminal (Game.board g) = false ->
  Game.aiMove g = Ok (u, g') ->
  exists best : Z * Z,
    by_value (AI.findBestMove (Game.ai g)) (Game.board g) = Ok best /\
    Game.board g !! slot (fst best) (snd best) = Some Empty /\
    g' = after_move O (slot (fst best) (snd best)) g.
Proof.
  intros [Hwf Hai] Hover Hterm H.
  apply terminal_false in Hterm. destruct Hterm as [_ Hfull].
  destruct (findBestMove_choice (Game.ai g) (Game.board g))
    as (best & Hfind & Hbest);
    [rewrite Hai; discriminate|rewrite Hai; discriminate|exact Hwf|].
  destruct Hbest as [[Hnone _]|Hin];
    [destruct (not_full_empties _ Hwf Hfull Hnone)|].
  rewrite (aiMove_move g best _ Hwf Hover Hfind Hin) in H.
  destruct (Game.checkGameState _); [|discriminate].
  exists best. split; [unfold by_value; rewrite Hfind; reflexivity|].
  apply empties_spec in Hin. destruct Hin as [_ He].
  split; [exact He|congruence].
Qed.

Lemma gui_inv_alone (g g' : Game.t) (r c : Z) (ok : bool) :
  gui_inv g -> Game.mode g = Game.HumanVsAI -> Game.current g = X ->
  Game.playMove r c g = Ok (ok, g') ->
  ok = false \/ Game.over g' = true -> gui_inv g'.
Proof.
  intros (Hinv & Hfin & Hlegal & Hguard) Hmode Hcur Hplay Hstop.
  pose proof Hinv as ([Hwf _] & _).
  destruct (playMove_cases g g' r c ok Hwf Hplay)
    as [[_ ->]|(-> & Hover & _ & He & ->)].
  { split; [exact Hinv|]. split; [exact Hfin|]. split; assumption. }
  destruct Hstop as [Hstop|Hstop]; [discriminate|].
  destruct (core_after_move (slot r c) g Hinv Hfin Hlegal Hover He)
    as (H1 & H2 & H3).
  split; [exact H1|]. split; [exact H2|]. split; [exact H3|].
  intros _. split; [|congruence].
  destruct (Hguard Hmode) as [_ Hlive].
  destruct (Hlive Hover) as [_ [n Hsafe]].
  assert (Hi : (slot r c < 9)%nat)
    by (apply lookup_lt_Some in He; unfold Board.wf in Hwf; lia).
  destruct (safe_step n (Game.board g) (slot r c) Hsafe Hi He) as [n' Hs].
  rewrite Hcur in *.
  rewrite (over_after_move X (slot r c) g Hover) in Hstop.
  rewrite Hstop in Hs. apply not_won_by_X_spec in Hs.
  rewrite winnerOpt_after_move, Hstop. exact Hs.
Qed.

Lemma gui_inv_reply (g g1 g' : Game.t) (r c : Z) :
  gui_inv g -> Game.mode g = Game.HumanVsAI -> Game.current g = X ->
  Game.playMove r c g = Ok (true, g1) -> Game.over g1 = false ->
  Game.aiMove g1 = Ok (tt, g') -> gui_inv g'.
Proof.
  intros (Hinv & Hfin & Hlegal & Hguard) Hmode Hcur Hplay Hover1 Hreply.
  pose proof Hinv as ([Hwf Hai] & Hlive0 & _).
  destruct (playMove_cases g g1 r c true Hwf Hplay)
    as [[Hno _]|(_ & Hover & _ & He & ->)]; [discriminate|].
  destruct (Hlive0 Hover) as [_ Hnone].
  destruct (core_after_move (slot r c) g Hinv Hfin Hlegal Hover He)
    as (H1 & H2 & H3).
  rewrite Hcur in *.
  set (g1 := after_move X (slot r c) g) in *.
  pose proof (over_after_move X (slot r c) g Hover) as Ho1.
  fold g1 in Ho1. rewrite Hover1 in Ho1. symmetry in Ho1.
  pose proof (current_after_move X (slot r c) g) as Hc1.
  fold g1 in Hc1. rewrite Hover1, Hcur in Hc1.
  change (other X) with O in Hc1.
  pose proof (board_after_move X (slot r c) g) as Hb1. fold g1 in Hb1.
  pose proof (frame_after_move X (slot r c) g) as [Hm1 Ha1].
  fold g1 in Hm1, Ha1.
  pose proof H1 as ([Hwf1 Hai1] & _).
  assert (Hterm1 : terminal (Game.board g1) = false)
    by (rewrite Hb1; exact Ho1).
  destruct (aiMove_in_progress g1 g' tt (conj Hwf1 Hai1) Hover1 Hterm1 Hreply)
    as (best & Hfind & Hbe & ->).
  rewrite <- Hc1.
  destruct (core_after_move (slot (fst best) (snd best)) g1 H1 H2 H3
              Hover1 Hbe) as (K1 & K2 & K3).
  split; [exact K1|]. split; [exact K2|]. split; [exact K3|].
  rewrite Hc1. intros _.
  destruct (Hguard Hmode) as [_ Hlive].
  destruct (Hlive Hover) as [_ [n Hsafe]].
  assert (Hi : (slot r c < 9)%nat)
    by (apply lookup_lt_Some in He; unfold Board.wf in Hwf; lia).
  destruct (safe_step n (Game.board g) (slot r c) Hsafe Hi He) as [n' Hs].
  rewrite Ho1 in Hs. destruct Hs as (best' & Hfind' & Hs).
  rewrite Hai1, Hb1 in Hfind. rewrite Hfind in Hfind'.
  injection Hfind' as <-.
  pose proof (over_after_move O (slot (fst best) (snd best)) g1 Hover1)
    as Ho2.
  pose proof (winnerOpt_after_move O (slot (fst best) (snd best)) g1)
    as Hw2.
  pose proof (current_after_move O (slot (fst best) (snd best)) g1) as Hc2.
  rewrite Hb1 in Ho2, Hw2. unfold place in Hs.
  destruct (terminal (<[slot (fst best) (snd best) := O]>
                        (<[slot r c := X]> (Game.board g)))).
  - apply not_won_by_X_spec in Hs. split; [rewrite Hw2; exact Hs|].
    congruence.
  - split.
    + rewrite Hw2. unfold g1. rewrite winnerOpt_after_move, Ho1, Hnone.
      discriminate.
    + intros _. rewrite Hc2, Ho2, Hc1. split; [reflexivity|].
      exists n'. rewrite board_after_move, Hb1. exact Hs.
Qed.

Lemma gui_reachable_gui_inv (g : Game.t) : gui_reachable g -> gui_inv g.
Proof.
  apply (gui_reachable_invariant gui_inv).
  - exact gui_inv_restart.
  - exact gui_inv_toggle.
  - exact gui_inv_human.
  - exact gui_inv_alone.
  - exact gui_inv_reply.
  - exact (fresh_gui_inv Game.HumanVsAI 0 0).
Qed.

(** *** Clicks on the grid *)








Lemma cell_of_pixel (z : Z) :
  0 <= z < 600 -> 0 <= z ÷ GUI.cellSize < Board.SIZE.
Proof.
  intros H. change GUI.cellSize with 200. unfold Board.SIZE. split.
  - apply Z.quot_pos; lia.
  - apply Z.quot_lt_upper_bound; lia.
Qed.



(** X11. The guard of the grid is [my <= 600]: a left click on the pixel
    row 600, just under the grid, is taken for row 3.  While the game is in
    progress (and, against the computer, it is X's turn) the handler then
    reads the board outside its nine cells. *)
Theorem click_below_grid_is_out_of_bounds (g : Game.t) (mx : Z) :
  Board.wf (Game.board g) -> Game.over g = false ->
  Game.mode g = Game.HumanVsHuman \/ Game.current g = X ->
  0 <= mx < 600 ->
  GUI.handleEvent (GUI.MouseButtonPressed GUI.MouseLeft mx 600) g
  = Bad OutOfBounds.
Proof.
  intros Hwf Hover Hturn Hmx.
  pose proof (cell_of_pixel mx Hmx) as Hc.
  assert (Hplay : Game.playMove (600 ÷ GUI.cellSize) (mx ÷ GUI.cellSize) g
                  = Bad OutOfBounds).
  { change (600 ÷ GUI.cellSize) with 3.
    unfold Game.playMove. rewrite bind_get, Hover.
    apply bind_bad. apply on_board_bad.
    assert (Hidx : Board.index 3 (mx ÷ GUI.cellSize) (Game.board g)
                   = Ok (3 * Board.SIZE + mx ÷ GUI.cellSize, Game.board g)).
    { unfold Board.index.
      rewrite (bind_ok _ _ _ _ _ (int_ok (3 * Board.SIZE) (Game.board g)
                 ltac:(unfold Board.SIZE, INT_MIN, INT_MAX; lia))).
      apply int_ok. unfold Board.SIZE, INT_MIN, INT_MAX in *. lia. }
    unfold Board.get. rewrite (bind_ok _ _ _ _ _ Hidx).
    apply at_bad; [exact Hwf|]. unfold Board.SIZE in *. lia. }
  cbn [GUI.handleEvent]. change (600 <=? 600) with true. cbv zeta.
  unfold Game.getMode. rewrite bind_getter.
  destruct (Game.mode g).
  - apply bind_bad. exact Hplay.
  - destruct Hturn as [Hturn|Hturn]; [discriminate|].
    unfold Game.currentPlayer. rewrite bind_getter, Hturn, Cell_eqb_refl.
    apply bind_bad. exact Hplay.
Qed.

Lemma click_below_grid_is_out_of_bounds_witness :
  GUI.handleEvent (GUI.MouseButtonPressed GUI.MouseLeft 300 600) Game.init
  = Bad OutOfBounds.
Proof.
  apply (click_below_grid_is_out_of_bounds Game.init 300).
  - reflexivity.
  - reflexivity.
  - right. reflexivity.
  - lia.
Defined.

(** *** What the event loop guarantees *)

Lemma gui_sample :
  gui_reachable (Game.Make [X; Empty; Empty; Empty; O; Empty; Empty; Empty;
                            Empty]
                           X Game.HumanVsAI (AI.Make O X) false None 0 0).
Proof.
  apply (gui_event Game.init _ (GUI.MouseButtonPressed GUI.MouseLeft 10 10));
    [apply gui_init|]. vm_compute. reflexivity.
Defined.

(** X12. Under the event loop, in the mode against the computer, it is X's
    turn whenever the game is in progress: the computer has always answered
    within the event of the click.  The condition of [update] therefore
    never holds, and [update] leaves the session and its static flag
    untouched, whatever its clock shows. *)
Theorem update_has_nothing_to_do (g : Game.t) (elapsed : Z) (started : bool) :
  gui_reachable g ->
  (Game.mode g = Game.HumanVsAI -> Game.over g = false ->
   Game.current g = X) /\
  GUI.update elapsed (g, started) = Ok (tt, (g, started)).
Proof.
  intros Hreach.
  destruct (gui_reachable_gui_inv g Hreach) as (_ & _ & _ & Hguard).
  assert (Hturn : Game.mode g = Game.HumanVsAI -> Game.over g = false ->
                  Game.current g = X).
  { intros Hmode Hover. destruct (Hguard Hmode) as [_ Hlive].
    apply Hlive. exact Hover. }
  split; [exact Hturn|].
  unfold GUI.update, GUI.on_game, Game.getMode, Game.isOver,
    Game.currentPlayer, bind, get, ret. cbn [fst snd].
  destruct (Game.mode g); [reflexivity|].
  destruct (Game.over g); [reflexivity|].
  rewrite (Hturn eq_refl eq_refl). reflexivity.
Qed.

Lemma update_has_nothing_to_do_witness :
  GUI.update 1000
    (Game.Make [X; Empty; Empty; Empty; O; Empty; Empty; Empty; Empty]
               X Game.HumanVsAI (AI.Make O X) false None 0 0, false)
  = Ok (tt,
        (Game.Make [X; Empty; Empty; Empty; O; Empty; Empty; Empty; Empty]
                   X Game.HumanVsAI (AI.Make O X) false None 0 0, false)).
Proof.
  apply (update_has_nothing_to_do _ 1000 false gui_sample).
Defined.

(** X13. The computer never loses.  In every session the event loop can
    produce, while the mode is the one against the computer, X has no
    complete line on the board, [checkWinner] does not report X, and the
    stored winner is not X. *)
Theorem computer_never_loses (g : Game.t) :
  gui_reachable g -> Game.mode g = Game.HumanVsAI ->
  Game.winnerOpt g <> Some X /\
  (exists w : option Cell,
     Board.checkWinner (Game.board g) = Ok (w, Game.board g) /\
     w <> Some X) /\
  (forall l : nat * nat * nat, In l lines -> ~ complete (Game.board g) l X).
Proof.
  intros Hreach Hmode.
  destruct (gui_reachable_gui_inv g Hreach)
    as (([Hwf _] & Hlive & _) & [Hone Hfin] & _ & Hguard).
  destruct (Hguard Hmode) as [Hstored _].
  assert (Hw : winner (Game.board g) <> Some X).
  { destruct (Game.over g) eqn:Hover.
    - destruct (Hfin eq_refl) as [_ <-]. exact Hstored.
    - destruct (Hlive eq_refl) as [Hterm _].
      apply terminal_false in Hterm. destruct Hterm as [-> _]. discriminate. }
  split; [exact Hstored|].
  split.
  { exists (winner (Game.board g)).
    split; [apply checkWinner_run; exact Hwf|exact Hw]. }
  intros l Hl Hc.
  destruct (winner (Game.board g)) as [w|] eqn:E.
  - destruct (winner_complete _ _ E) as (l' & Hl' & Hc').
    pose proof (Hone l l' X w Hl Hl' Hc Hc'). congruence.
  - exact (winner_None_no_line _ l X E Hl Hc).
Qed.

Lemma computer_never_loses_witness :
  Game.winnerOpt
    (Game.Make [X; Empty; Empty; Empty; O; Empty; Empty; Empty; Empty]
               X Game.HumanVsAI (AI.Make O X) false None 0 0)
  <> Some X /\
  exists w : option Cell,
    Board.checkWinner [X; Empty; Empty; Empty; O; Empty; Empty; Empty; Empty]
    = Ok (w, [X; Empty; Empty; Empty; O; Empty; Empty; Empty; Empty]) /\
    w <> Some X.
Proof.
  destruct (computer_never_loses _ gui_sample eq_refl) as (H1 & H2 & _).
  split; [exact H1|exact H2].
Defined.

(** X14. Every board the event loop can produce is a position of a game
    played in turns with X first: X has as many marks as O or one more, and
    while the game is in progress the turn is X's exactly when the two
    counts are equal, and otherwise O's. *)
Theorem board_is_played_in_turns (g : Game.t) :
  gui_reachable g ->
  (count_mark X (Game.board g) = count_mark O (Game.board g) \/
   count_mark X (Game.board g) = S (count_mark O (Game.board g))) /\
  (Game.over g = false ->
   (Game.current g = X /\
    count_mark X (Game.board g) = count_mark O (Game.board g)) \/
   (Game.current g = O /\
    count_mark X (Game.board g) = S (count_mark O (Game.board g)))).
Proof.
  intros Hreach.
  destruct (gui_reachable_gui_inv g Hreach) as (_ & _ & Hlegal & _).
  exact Hlegal.
Qed.

Lemma board_is_played_in_turns_witness :
  count_mark X [X; Empty; Empty; Empty; O; Empty; Empty; Empty; Empty]
  = count_mark O [X; Empty; Empty; Empty; O; Empty; Empty; Empty; Empty] \/
  count_mark X [X; Empty; Empty; Empty; O; Empty; Empty; Empty; Empty]
  = S (count_mark O [X; Empty; Empty; Empty; O; Empty; Empty; Empty; Empty]).
Proof.
  destruct (board_is_played_in_turns _ gui_sample) as [H _]. exact H.
Defined.

(** The loop of [handleEvents] stays within the sessions reached event by
    event. *)
Lemma handleEvents_reachable (events : list GUI.Event) (g g' : Game.t) :
  gui_reachable g -> GUI.handleEvents events g = Ok (tt, g') ->
  gui_reachable g'.
Proof.
  unfold GUI.handleEvents. revert g.
  induction events as [|e events IH]; intros g Hreach H.
  - injection H as <-. exact Hreach.
  - cbn [for_each] in H.
    destruct (GUI.handleEvent e g) as [[[] g1]|f] eqn:He.
    + rewrite (bind_ok _ _ _ _ _ He) in H.
      apply (IH g1); [|exact H]. apply (gui_event g g1 e); assumption.
    + rewrite (bind_bad _ _ _ _ He) in H. discriminate.
Qed.

(** X15. The controls never touch the score: every event other than a left
    click on the grid area (keys R and M, the two buttons, clicks
    elsewhere, any other event) is handled to the end on any session,
    leaves both counters as they were, and either leaves the whole session
    as it was or leaves an all-Empty board with X to move, the game in
    progress and no winner stored. *)
Theorem controls_keep_scores (e : GUI.Event) (g : Game.t) :
  (forall mx my : Z,
     e = GUI.MouseButtonPressed GUI.MouseLeft mx my -> 600 < my) ->
  exists g' : Game.t,
    GUI.handleEvent e g = Ok (tt, g') /\
    Game.scoreX g' = Game.scoreX g /\ Game.scoreO g' = Game.scoreO g /\
    (g' = g \/
     (Game.board g' = replicate (length (Game.board g)) Empty /\
      Game.current g' = X /\ Game.over g' = false /\
      Game.winnerOpt g' = None)).
Proof.
  intros Hoff.
  assert (Hsame : exists g' : Game.t,
            Ok (tt, g) = Ok (tt, g') /\
            Game.scoreX g' = Game.scoreX g /\ Game.scoreO g' = Game.scoreO g /\
            (g' = g \/
             (Game.board g' = replicate (length (Game.board g)) Empty /\
              Game.current g' = X /\ Game.over g' = false /\
              Game.winnerOpt g' = None)))
    by (exists g; auto).
  assert (Hrestart : exists g' : Game.t,
            Game.restart g = Ok (tt, g') /\
            Game.scoreX g' = Game.scoreX g /\ Game.scoreO g' = Game.scoreO g /\
            (g' = g \/
             (Game.board g' = replicate (length (Game.board g)) Empty /\
              Game.current g' = X /\ Game.over g' = false /\
              Game.winnerOpt g' = None)))
    by (eexists; split; [apply restart_run|cbn; auto 10]).
  assert (Htoggle : exists g' : Game.t,
            GUI.toggleMode g = Ok (tt, g') /\
            Game.scoreX g' = Game.scoreX g /\ Game.scoreO g' = Game.scoreO g /\
            (g' = g \/
             (Game.board g' = replicate (length (Game.board g)) Empty /\
              Game.current g' = X /\ Game.over g' = false /\
              Game.winnerOpt g' = None)))
    by (eexists; split; [apply toggleMode_run|cbn; auto 10]).
  destruct e as [|[|] mx my|[| |]|]; cbn [GUI.handleEvent];
    try exact Hsame; try exact Hrestart; try exact Htoggle.
  specialize (Hoff mx my eq_refl).
  replace (my <=? 600) with false by (symmetry; apply Z.leb_gt; exact Hoff).
  unfold GUI.handleBottomClick.
  destruct ((mx >=? 50) && (mx <=? 250) && (my >=? 610) && (my <=? 660)).
  - rewrite (bind_ok _ _ _ _ _ (restart_run g)).
    destruct ((mx >=? 350) && (mx <=? 550) && (my >=? 610) && (my <=? 660)).
    + eexists. split; [apply toggleMode_run|].
      cbn. rewrite length_replicate. auto 10.
    + eexists. split; [reflexivity|]. cbn. auto 10.
  - rewrite bind_ret.
    destruct ((mx >=? 350) && (mx <=? 550) && (my >=? 610) && (my <=? 660));
      [exact Htoggle|exact Hsame].
Qed.

Lemma controls_keep_scores_witness :
  exists g' : Game.t,
    GUI.handleEvent (GUI.MouseButtonPressed GUI.MouseLeft 100 630)
      (Game.Make [X; X; X; O; O; Empty; Empty; Empty; Empty]
                 X Game.HumanVsHuman (AI.Make O X) true (Some X) 1 0)
    = Ok (tt, g') /\
    Game.scoreX g' = 1.
Proof.
  destruct (controls_keep_scores
              (GUI.MouseButtonPressed GUI.MouseLeft 100 630)
              (Game.Make [X; X; X; O; O; Empty; Empty; Empty; Empty]
                         X Game.HumanVsHuman (AI.Make O X) true (Some X) 1 0))
    as (g' & Hrun & HX & _).
  - intros mx my [= _ <-]. lia.
  - exists g'. split; [exact Hrun|exact HX].
Defined.
